(** * xml-surgeon: a model of [scripts/lib.py] and [scripts/main.py]

    The surgical mutators patch the decoded source text of an XML file in
    place; the structural mutators edit the parsed tree and reserialize it.
    This development embeds both, together with the small part of the Python
    runtime they lean on ([str] methods, the [re] module, [xml_escape]), and
    states the behaviour of the editor as theorems about the embedding.

    The XML parser, the XPath evaluator, [glob] and [difflib] are
    parameters of the commands. Of lxml's serializer only what [serialize]
    controls is written out: the declaration and the doctype line. The
    codecs of the surgical commands, and the attributes of an element and
    [repr] in the outline, are parameters as well. *)

From Stdlib Require Import NArith Ascii String.
From stdpp Require Import base option list strings gmap pretty sorting.

Set Default Proof Using "Type".

(** ** Python values *)

(** A [str] is a sequence of code points. *)
Abbreviation str := (list N).

(** Reading a literal: [py "<a/>"] is the Python string ["<a/>"]. *)
Definition py (s : string) : str :=
  (λ a : ascii, N_of_ascii a) <$> list_ascii_of_string s.

(** What a Python program can raise here. [SystemExit] is what [fail]
    raises, [ReError] is [re.error], [IndexError], [ValueError] and
    [OSError] are the built-in exceptions of the same name. *)
Inductive exn :=
| SystemExit (code : Z) (msg : str)
| ReError (msg : string)
| IndexError (msg : string)
| ValueError (msg : string)
| OSError (msg : string).

Inductive result (A : Type) :=
| Ok (a : A)
| Raise (e : exn).
Arguments Ok {A} a.
Arguments Raise {A} e.

#[global] Instance result_ret : MRet result := λ A a, Ok a.
#[global] Instance result_bind : MBind result := λ A B f m,
  match m with
  | Ok a => f a
  | Raise e => Raise e
  end.

#[global] Instance result_fmap : FMap result := λ A B f m,
  match m with
  | Ok a => Ok (f a)
  | Raise e => Raise e
  end.

Definition is_ok {A} (r : result A) : bool :=
  match r with Ok _ => true | Raise _ => false end.

Module Py.

(** *** Characters *)

Definition c_nl : N := 10.        (* "\n" *)
Definition c_dquote : N := 34.    (* the double quote, chr(34) *)
Definition c_amp : N := 38.       (* & *)
Definition c_squote : N := 39.    (* ' *)
Definition c_slash : N := 47.     (* / *)
Definition c_lt : N := 60.        (* < *)
Definition c_eq : N := 61.        (* = *)
Definition c_gt : N := 62.        (* > *)
Definition c_qmark : N := 63.     (* ? *)
Definition c_bslash : N := 92.    (* the backslash *)
Definition c_rbrace : N := 125.   (* } *)

(** [str.isspace] on one code point; it is also what [\s] matches in a
    [str] pattern. *)
Definition isspace (c : N) : bool :=
  ((9 <=? c) && (c <=? 13) || (28 <=? c) && (c <=? 32)
   || (c =? 133) || (c =? 160) || (c =? 5760)
   || (8192 <=? c) && (c <=? 8202) || (c =? 8232) || (c =? 8233)
   || (c =? 8239) || (c =? 8287) || (c =? 12288))%N.

(** [\s] in a [bytes] pattern: ASCII white space only. *)
Definition isspace_ascii (c : N) : bool :=
  ((9 <=? c) && (c <=? 13) || (c =? 32))%N.

Definition is_digit (c : N) : bool := ((48 <=? c) && (c <=? 57))%N.
Definition is_octdigit (c : N) : bool := ((48 <=? c) && (c <=? 55))%N.
Definition is_ascii_letter (c : N) : bool :=
  ((65 <=? c) && (c <=? 90) || (97 <=? c) && (c <=? 122))%N.
Definition digit_val (c : N) : nat := N.to_nat (c - 48).

(** *** [str] methods *)

Definition str_eqb (a b : str) : bool := bool_decide (a = b).

(** [s.startswith(p)] *)
Fixpoint startswith (p s : str) : bool :=
  match p, s with
  | [], _ => true
  | a :: p', b :: s' => (a =? b)%N && startswith p' s'
  | _ :: _, [] => false
  end.

(** [s.endswith(p)] *)
Definition endswith (p s : str) : bool := startswith (reverse p) (reverse s).

(** First index of [needle] in [s], as an offset into [s]. *)
Fixpoint find_in (needle s : str) : option nat :=
  if startswith needle s then Some 0
  else match s with
       | [] => None
       | _ :: s' => S <$> find_in needle s'
       end.

(** [text.find(needle, start)]; [None] stands for Python's [-1]. *)
Definition find (needle text : str) (start : nat) : option nat :=
  if decide (start ≤ length text)
  then (λ i, start + i) <$> find_in needle (drop start text)
  else None.

(** Last index of [needle] in [s]. *)
Fixpoint rfind (needle s : str) : option nat :=
  match s with
  | [] => if startswith needle [] then Some 0 else None
  | _ :: s' =>
      match rfind needle s' with
      | Some i => Some (S i)
      | None => if startswith needle s then Some 0 else None
      end
  end.

(** [c in s] for a one-character needle. *)
Definition contains (c : N) (s : str) : bool := existsb (N.eqb c) s.

Fixpoint lstrip (s : str) : str :=
  match s with
  | c :: s' => if isspace c then lstrip s' else s
  | [] => []
  end.
Definition rstrip (s : str) : str := reverse (lstrip (reverse s)).
Definition strip (s : str) : str := rstrip (lstrip s).

(** [data.replace(c, by)] for a one-character [c]. *)
Definition replace1 (c : N) (by_ : str) (data : str) : str :=
  flat_map (λ x, if (x =? c)%N then by_ else [x]) data.

(** [xml.sax.saxutils.escape(data, entities)] with at most one entry in
    [entities]: ampersand, then [>], then [<], then the entry. *)
Definition xml_escape (data : str) (entity : option (N * str)) : str :=
  let data := replace1 c_amp (py "&amp;") data in
  let data := replace1 c_gt (py "&gt;") data in
  let data := replace1 c_lt (py "&lt;") data in
  match entity with
  | Some (c, e) => replace1 c e data
  | None => data
  end.

(** *** The [re] module

    The patterns of [lib.py] are sequences of literals, single-character
    classes, repeated classes (greedy or lazy), capture groups and one
    back-reference. [run] is the backtracking matcher for such sequences:
    a greedy repetition tries the longest run first, a lazy one the
    shortest, and the continuation [k] is the rest of the pattern, so a
    failure further on backtracks into the repetition exactly as the
    [re] engine does. *)

Inductive atom :=
| ALit (s : str)                                  (* literal text *)
| ASet (p : N → bool)                             (* one character of a class *)
| ARep (p : N → bool) (min : nat) (greedy : bool) (* p*, p+, p*?, p+? *)
| AOpen (g : nat)                                 (* "(" of group g *)
| AClose (g : nat)                                (* ")" of group g *)
| ABackref (g : nat)                              (* \g *)
| AEnd.                                           (* $ *)

Abbreviation regex := (list atom).

(** Spans of the groups closed so far, and the start of the open ones. *)
Record captures := {
  opened : list (nat * nat);
  closed : list (nat * (nat * nat));
}.

Definition no_captures : captures := {| opened := []; closed := [] |}.

Definition assoc {A} (g : nat) (l : list (nat * A)) : option A :=
  (λ p, p.2.2) <$> list_find (λ p, p.1 = g) l.

(** [m.group(g)]: the text of group [g] (group 0 is the whole match). *)
Definition group_text (subj : str) (c : captures) (g : nat) : option str :=
  assoc g (closed c) ≫= λ '(s, e), Some (take (e - s) (drop s subj)).

Definition continuation := nat → str → captures → option (nat * captures).

Fixpoint rep_greedy (p : N → bool) (k : continuation)
    (min pos : nat) (rest : str) (c : captures) : option (nat * captures) :=
  let stop := if min is 0 then k pos rest c else None in
  match rest with
  | x :: rest' =>
      if p x then
        match rep_greedy p k (pred min) (S pos) rest' c with
        | Some r => Some r
        | None => stop
        end
      else stop
  | [] => stop
  end.

Fixpoint rep_lazy (p : N → bool) (k : continuation)
    (min pos : nat) (rest : str) (c : captures) : option (nat * captures) :=
  let more :=
    match rest with
    | x :: rest' => if p x then rep_lazy p k (pred min) (S pos) rest' c else None
    | [] => None
    end in
  match min with
  | 0 => match k pos rest c with
         | Some r => Some r
         | None => more
         end
  | S _ => more
  end.

Fixpoint run (r : regex) (subj : str) (k : continuation)
    (pos : nat) (rest : str) (c : captures) : option (nat * captures) :=
  match r with
  | [] => k pos rest c
  | a :: r' =>
      let k' := run r' subj k in
      match a with
      | ALit s =>
          if startswith s rest
          then k' (pos + length s) (drop (length s) rest) c
          else None
      | ASet p =>
          match rest with
          | x :: rest' => if p x then k' (S pos) rest' c else None
          | [] => None
          end
      | ARep p min true => rep_greedy p k' min pos rest c
      | ARep p min false => rep_lazy p k' min pos rest c
      | AOpen g =>
          k' pos rest {| opened := (g, pos) :: opened c; closed := closed c |}
      | AClose g =>
          match assoc g (opened c) with
          | Some s =>
              k' pos rest {| opened := opened c;
                             closed := (g, (s, pos)) :: closed c |}
          | None => None
          end
      | ABackref g =>
          match group_text subj c g with
          | Some s =>
              if startswith s rest
              then k' (pos + length s) (drop (length s) rest) c
              else None
          | None => None
          end
      | AEnd =>
          (* without MULTILINE: at the end, or before a final newline *)
          if bool_decide (rest = [] ∨ rest = [c_nl]) then k' pos rest c else None
      end
  end.

(** A match object: where the match starts and ends, and its groups. *)
Record rmatch := {
  m_start : nat;
  m_end : nat;
  m_caps : captures;
}.

(** One attempt at offset [pos]. With [must_advance] an empty match is
    refused (the engine's rule after an empty match in [sub]). *)
Definition match_at (r : regex) (subj : str) (must_advance : bool)
    (pos : nat) (rest : str) : option rmatch :=
  let accept : continuation := λ e _ c,
    if must_advance && (e =? pos) then None else Some (e, c) in
  run r subj accept pos rest no_captures ≫= λ '(e, c),
    Some {| m_start := pos; m_end := e;
            m_caps := {| opened := opened c;
                         closed := (0, (pos, e)) :: closed c |} |}.

(** The leftmost match at or after [pos]. *)
Fixpoint search_from (r : regex) (subj : str) (must_advance : bool)
    (pos : nat) (rest : str) : option rmatch :=
  match match_at r subj must_advance pos rest with
  | Some m => Some m
  | None =>
      match rest with
      | [] => None
      | _ :: rest' => search_from r subj false (S pos) rest'
      end
  end.

(** [pattern.search(subj)] and [pattern.match(subj)]. *)
Definition re_search (r : regex) (subj : str) : option rmatch :=
  search_from r subj false 0 subj.
Definition re_match (r : regex) (subj : str) : option rmatch :=
  match_at r subj false 0 subj.

Definition group (subj : str) (m : rmatch) (g : nat) : str :=
  default [] (group_text subj (m_caps m) g).

(** **** Replacement templates

    A replacement given as a string is a template: [re] reads its backslash
    escapes before substituting ([parse_template]). A template is parsed to
    literal text and group references; a bad escape raises [re.error]. *)

Inductive piece :=
| PLit (c : N)
| PGroup (g : nat).

(** The escapes [re] knows in a template besides groups and octal codes. *)
Definition template_escape (c : N) : option N :=
  if (c =? 97)%N then Some 7%N          (* \a *)
  else if (c =? 98)%N then Some 8%N     (* \b *)
  else if (c =? 102)%N then Some 12%N   (* \f *)
  else if (c =? 110)%N then Some 10%N   (* \n *)
  else if (c =? 114)%N then Some 13%N   (* \r *)
  else if (c =? 116)%N then Some 9%N    (* \t *)
  else if (c =? 118)%N then Some 11%N   (* \v *)
  else if (c =? c_bslash)%N then Some c_bslash
  else None.

Definition decimal (ds : str) : nat :=
  foldl (λ acc d, 10 * acc + digit_val d) 0 ds.
Definition octal (ds : str) : N :=
  foldl (λ acc d, 8 * acc + (d - 48))%N 0%N ds.

Definition group_ref (ngroups g : nat) : result piece :=
  if decide (g ≤ ngroups) then Ok (PGroup g)
  else Raise (ReError "invalid group reference").

(** [fuel] bounds the number of escapes read; [length repl] is enough. A
    group is named by decimal digits, as Python 3.12 reads [\g<...>]. *)
Fixpoint parse_template (fuel ngroups : nat) (repl : str) : result (list piece) :=
  match fuel with
  | 0 => Ok []
  | S fuel =>
      let continue (p : result piece) (rest : str) :=
        x ← p; xs ← parse_template fuel ngroups rest; Ok (x :: xs) in
      match repl with
      | [] => Ok []
      | c :: rest =>
          if negb (c =? c_bslash)%N then continue (Ok (PLit c)) rest
          else
            match rest with
            | [] => Raise (ReError "bad escape (end of pattern)")
            | e :: rest =>
                if (e =? 103)%N then            (* \g<number> *)
                  match rest with
                  | lt :: rest =>
                      if negb (lt =? c_lt)%N then Raise (ReError "missing <")
                      else
                        match find_in [c_gt] rest with
                        | None => Raise (ReError "missing >, unterminated name")
                        | Some n =>
                            let name := take n rest in
                            if bool_decide (name = []) then
                              Raise (ReError "missing group name")
                            else if forallb is_digit name then
                              continue (group_ref ngroups (decimal name))
                                       (drop (S n) rest)
                            else
                              (* the patterns here name no group: an
                                 identifier is an IndexError, anything else
                                 a re.error; no caller tells them apart *)
                              Raise (IndexError "unknown group name")
                        end
                  | [] => Raise (ReError "missing <")
                  end
                else if (e =? 48)%N then        (* \0, \0o, \0oo *)
                  match rest with
                  | o1 :: o2 :: rest' =>
                      if is_octdigit o1 && is_octdigit o2
                      then continue (Ok (PLit (N.land (octal [o1; o2]) 255))) rest'
                      else if is_octdigit o1
                      then continue (Ok (PLit (octal [o1]))) (o2 :: rest')
                      else continue (Ok (PLit 0%N)) rest
                  | [o1] =>
                      if is_octdigit o1 then continue (Ok (PLit (octal [o1]))) []
                      else continue (Ok (PLit 0%N)) rest
                  | [] => continue (Ok (PLit 0%N)) []
                  end
                else if is_digit e then         (* \d, \dd, \ooo *)
                  match rest with
                  | d2 :: rest' =>
                      if is_digit d2 then
                        match rest' with
                        | d3 :: rest'' =>
                            if is_octdigit e && is_octdigit d2 && is_octdigit d3
                            then
                              let v := octal [e; d2; d3] in
                              if (255 <? v)%N
                              then Raise (ReError "octal escape value outside of range 0-0o377")
                              else continue (Ok (PLit v)) rest''
                            else continue (group_ref ngroups (decimal [e; d2])) rest'
                        | [] => continue (group_ref ngroups (decimal [e; d2])) rest'
                        end
                      else continue (group_ref ngroups (decimal [e])) rest
                  | [] => continue (group_ref ngroups (decimal [e])) rest
                  end
                else
                  match template_escape e with
                  | Some x => continue (Ok (PLit x)) rest
                  | None =>
                      if is_ascii_letter e then Raise (ReError "bad escape")
                      else x ← continue (Ok (PLit e)) rest; Ok (PLit c :: x)
                  end
            end
      end
  end.

(** [m.expand] of a parsed template. *)
Definition expand (subj : str) (m : rmatch) (t : list piece) : str :=
  flat_map (λ p, match p with
                 | PLit c => [c]
                 | PGroup g => group subj m g
                 end) t.

(** [pattern.sub(repl, subj, count)] for a string [repl]; [count = 0]
    replaces every match. The template is compiled before the search, so a
    bad template raises whether or not the pattern matches. *)
Fixpoint sub_loop (fuel : nat) (r : regex) (t : list piece) (subj : str)
    (count : nat) (must_advance : bool) (pos : nat) (rest : str) : str :=
  match fuel with
  | 0 => rest
  | S fuel =>
      match search_from r subj must_advance pos rest with
      | None => rest
      | Some m =>
          let b := m_start m in
          let e := m_end m in
          take (b - pos) rest ++ expand subj m t ++
          (if decide (count = 1) then drop e subj
           else sub_loop fuel r t subj (pred count) (bool_decide (e = b))
                         e (drop e subj))
      end
  end.

Definition re_sub (r : regex) (ngroups : nat) (repl subj : str) (count : nat)
    : result str :=
  t ← parse_template (S (length repl)) ngroups repl;
  Ok (sub_loop (2 * length subj + 2) r t subj count false 0 subj).

End Py.

(** ** [lib.py] *)

Module Lib.
Import Py.

(** [fail(msg)] prints [msg] on the error channel and raises
    [SystemExit(2)]; the exception carries the message. *)
Definition fail {A} (msg : string) : result A := Raise (SystemExit 2 (py msg)).

(** What the editor reads of an lxml element. [children] are the ids of the
    child elements in the tree the element lives in; [sourceline] is the
    parser's line number, [None] when unknown. *)
Record element := {
  tag : str;
  text : option str;
  tail : option str;
  children : list nat;
  sourceline : option nat;
}.

(** *** Locating a tag in the source text *)

Fixpoint line_starts_from (idx : nat) (text : str) : list nat :=
  match text with
  | [] => []
  | ch :: text' =>
      if (ch =? c_nl)%N then S idx :: line_starts_from (S idx) text'
      else line_starts_from (S idx) text'
  end.

Definition line_starts (text : str) : list nat := 0 :: line_starts_from 0 text.

Definition local_tag (tag : str) : str :=
  match find_in [c_rbrace] tag with
  | Some i => drop (S i) tag
  | None => tag
  end.

(** The [while] loop of [find_start_tag_span]: [i] is the index of the head
    of [rest]. *)
Fixpoint scan_tag (in_quote : option N) (i : nat) (rest : str) : option nat :=
  match rest with
  | [] => None
  | ch :: rest' =>
      if (ch =? c_dquote)%N || (ch =? c_squote)%N then
        match in_quote with
        | None => scan_tag (Some ch) (S i) rest'
        | Some q =>
            if (q =? ch)%N then scan_tag None (S i) rest'
            else scan_tag in_quote (S i) rest'
        end
      else if (ch =? c_gt)%N && bool_decide (in_quote = None) then Some i
      else scan_tag in_quote (S i) rest'
  end.

Definition find_start_tag_span (text : str) (line_start : nat) (tag : str)
    : option (nat * nat) :=
  let needle := c_lt :: tag in
  let start :=
    match find needle text line_start with
    | Some s => Some s
    | None => find [c_lt] text line_start
    end in
  start ≫= λ start,
    scan_tag None start (drop start text) ≫= λ i, Some (start, i).

(** *** Editing one tag *)

Definition escape_attr (value quote : str) : str :=
  if bool_decide (quote = [c_dquote])
  then xml_escape value (Some (c_dquote, py "&quot;"))
  else xml_escape value (Some (c_squote, py "&apos;")).

Definition is_quote (c : N) : bool := (c =? c_dquote)%N || (c =? c_squote)%N.
(** [.] without DOTALL *)
Definition dot (c : N) : bool := negb (c =? c_nl)%N.

(** The pattern of [set_attr_in_tag]. Group 1: white space (at least one
    character), the name as a literal ([re.escape]), optional white space,
    the equals sign, optional white space. Group 2: a single or a double
    quote. Group 3: as few characters as possible, none of them a newline
    (the pattern is compiled without DOTALL). Then the text of group 2. *)
Definition set_attr_pattern (name : str) : regex :=
  [AOpen 1; ARep isspace 1 true; ALit name; ARep isspace 0 true;
   ALit [c_eq]; ARep isspace 0 true; AClose 1;
   AOpen 2; ASet is_quote; AClose 2;
   AOpen 3; ARep dot 0 false; AClose 3;
   ABackref 2].

(** The pattern of [del_attr_in_tag]: the same without the first pair of
    parentheses, so the quote is group 1 and the value group 2. *)
Definition del_attr_pattern (name : str) : regex :=
  [ARep isspace 1 true; ALit name; ARep isspace 0 true;
   ALit [c_eq]; ARep isspace 0 true;
   AOpen 1; ASet is_quote; AClose 1;
   AOpen 2; ARep dot 0 false; AClose 2;
   ABackref 1].

(** [s[:idx] + insert + s[idx:]] where [idx] is what [rfind] returned, [-1]
    included. *)
Definition insert_at_rfind (needle insert s : str) : str :=
  let idx := default (length s - 1) (rfind needle s) in
  take idx s ++ insert ++ drop idx s.

Definition set_attr_in_tag (tag_text name value : str) : result (str * bool) :=
  let pattern := set_attr_pattern name in
  match re_search pattern tag_text with
  | Some m =>
      let quote := group tag_text m 2 in
      let escaped := escape_attr value quote in
      let replacement := group tag_text m 1 ++ quote ++ escaped ++ quote in
      new ← re_sub pattern 3 replacement tag_text 1;
      Ok (new, true)
  | None =>
      let insert :=
        py " " ++ name ++ py "=" ++ [c_dquote] ++
        escape_attr value [c_dquote] ++ [c_dquote] in
      if endswith (py "/>") (rstrip tag_text)
      then Ok (insert_at_rfind (py "/>") insert tag_text, true)
      else if endswith (py ">") (rstrip tag_text)
      then Ok (insert_at_rfind (py ">") insert tag_text, true)
      else Ok (tag_text, false)
  end.

Definition del_attr_in_tag (tag_text name : str) : result (str * bool) :=
  let pattern := del_attr_pattern name in
  match re_search pattern tag_text with
  | None => Ok (tag_text, false)
  | Some _ =>
      new ← re_sub pattern 2 [] tag_text 1;
      Ok (new, true)
  end.

(** *** The surgical mutators *)

(** An edit as the mutators record it: [(start, end, replacement)]. *)
Definition edit : Type := nat * nat * str.
Definition edit_start (e : edit) : nat := e.1.1.

(** [sorted(edits, key=lambda x: x[0], reverse=True)]: the sort is stable,
    so edits with equal keys keep the order in which they were recorded. *)
Fixpoint insert_desc (e : edit) (l : list edit) : list edit :=
  match l with
  | [] => [e]
  | y :: l' =>
      if decide (edit_start e < edit_start y) then y :: insert_desc e l'
      else e :: l
  end.
Definition sorted_desc (edits : list edit) : list edit :=
  foldr insert_desc [] edits.

(** A [for] loop whose body may raise. *)
Fixpoint for_each {S A} (body : S → A → result S) (st : S) (l : list A)
    : result S :=
  match l with
  | [] => Ok st
  | x :: l' => st' ← body st x; for_each body st' l'
  end.

(** The body of the loop of [apply_attr_surgical]; the state is
    [(edits, seen)]. *)
Definition attr_step (text : str) (starts : list nat) (name : str)
    (value : option str) (set_value : bool)
    (st : list edit * gset nat) (el : element) : result (list edit * gset nat) :=
  let '(edits, seen) := st in
  let line := default 0 (sourceline el) in
  if decide (line ≤ 0 ∨ length starts < line) then Ok st
  else
    let tag := local_tag (tag el) in
    match find_start_tag_span text (default 0 (starts !! (line - 1))) tag with
    | None => Ok st
    | Some (start, end_) =>
        if decide (start ∈ seen) then Ok st
        else
          let seen := {[start]} ∪ seen in
          let tag_text := take (S end_ - start) (drop start text) in
          r ← (if set_value
               then set_attr_in_tag tag_text name (default [] value)
               else del_attr_in_tag tag_text name);
          let '(new_tag, changed) := r : str * bool in
          if changed && negb (str_eqb new_tag tag_text)
          then Ok (edits ++ [(start, end_, new_tag)], seen)
          else Ok (edits, seen)
    end.

(** [text[:start] + new_tag + text[end + 1:]] *)
Definition splice_incl (text : str) (e : edit) : str :=
  let '(start, end_, new_tag) := e in
  take start text ++ new_tag ++ drop (S end_) text.

Definition attr_edits (text : str) (elements : list element) (name : str)
    (value : option str) (set_value : bool) : result (list edit) :=
  fst <$> for_each (attr_step text (line_starts text) name value set_value)
                   ([], ∅) elements.

Definition apply_attr_surgical (text : str) (elements : list element)
    (name : str) (value : option str) (set_value : bool) : result (str * nat) :=
  edits ← attr_edits text elements name value set_value;
  Ok (foldl splice_incl text (sorted_desc edits), length edits).

(** The pattern of a self-closing tag end: a slash, optional white space,
    [>], optional white space, the end of the text. *)
Definition self_closing_pattern : regex :=
  [ALit [c_slash]; ARep isspace 0 true; ALit [c_gt]; ARep isspace 0 true; AEnd].

(** The body of the loop of [apply_text_surgical]. *)
Definition text_step (text : str) (starts : list nat) (value : str)
    (st : list edit * gset nat) (el : element) : result (list edit * gset nat) :=
  let '(edits, seen) := st in
  if negb (length (children el) =? 0) then
    fail "set-text only supports elements without child elements in surgical mode"
  else
    let line := default 0 (sourceline el) in
    if decide (line ≤ 0 ∨ length starts < line) then Ok st
    else
      let tag := local_tag (tag el) in
      match find_start_tag_span text (default 0 (starts !! (line - 1))) tag with
      | None => Ok st
      | Some (start, end_) =>
          if decide (start ∈ seen) then Ok st
          else
            let seen := {[start]} ∪ seen in
            let tag_text := take (S end_ - start) (drop start text) in
            if bool_decide (is_Some (re_search self_closing_pattern tag_text)) then
              replacement ←
                re_sub self_closing_pattern 0
                  ([c_gt] ++ xml_escape value None ++ py "</" ++ tag ++ [c_gt])
                  tag_text 0;
              Ok (edits ++ [(start, end_, replacement)], seen)
            else
              let end_tag := py "</" ++ tag ++ [c_gt] in
              match find end_tag text (S end_) with
              | None => Ok (edits, seen)
              | Some end_tag_idx =>
                  Ok (edits ++ [(S end_, end_tag_idx, xml_escape value None)], seen)
              end
      end.

(** [text[:start] + new_text + text[end:]] *)
Definition splice_excl (text : str) (e : edit) : str :=
  let '(start, end_, new_text) := e in
  take start text ++ new_text ++ drop end_ text.

Definition text_edits (text : str) (elements : list element) (value : str)
    : result (list edit) :=
  fst <$> for_each (text_step text (line_starts text) value) ([], ∅) elements.

Definition apply_text_surgical (text : str) (elements : list element)
    (value : str) : result (str * nat) :=
  edits ← text_edits text elements value;
  Ok (foldl splice_excl text (sorted_desc edits), length edits).

(** *** Header declaration *)

(** [bytes.decode("ascii", "ignore")]: bytes above 127 are dropped. *)
Definition decode_ascii_ignore (b : str) : str := filter (λ c, (c < 128)%N) b.

(** The pattern of an XML declaration at the start of the data: optional
    ASCII white space, [<?xml], ASCII white space, any characters but [>],
    then [?>]. *)
Definition decl_pattern : regex :=
  [ARep isspace_ascii 0 true; ALit (py "<?xml"); ARep isspace_ascii 1 true;
   ARep (λ c, negb (c =? c_gt)%N) 0 true; ALit (py "?>")].

(** The pattern of the encoding pseudo-attribute: [encoding=], a quote, at
    least one character that is not a quote (group 1), a quote. *)
Definition encoding_pattern : regex :=
  [ALit (py "encoding="); ASet is_quote;
   AOpen 1; ARep (λ c, negb (is_quote c)) 1 true; AClose 1;
   ASet is_quote].

Definition detect_decl_and_encoding (data : str) : bool * option str :=
  let has_decl := bool_decide (is_Some (re_match decl_pattern data)) in
  let enc :=
    if has_decl then
      let head := take 200 data in
      (λ m2, decode_ascii_ignore (group head m2 1)) <$>
        re_search encoding_pattern head
    else None in
  (has_decl, enc).

(** *** The tree

    An lxml tree is modelled as an arena: element [i] is the [i]-th entry of
    the store and names its children by index. lxml keeps an element's parent
    link and its parent's child list in step, so [getparent] is read off the
    child lists: the parent of [el] is the element that lists it. *)

Abbreviation store := (list element).

Definition getparent (s : store) (el : nat) : option nat :=
  fst <$> list_find (λ e, el ∈ children e) s.

Definition get_tail (s : store) (el : nat) : option str := s !! el ≫= tail.
Definition get_text (s : store) (el : nat) : option str := s !! el ≫= text.
Definition get_children (s : store) (el : nat) : list nat :=
  default [] (children <$> s !! el).

Definition with_children (ch : list nat) (e : element) : element :=
  {| tag := tag e; text := text e; tail := tail e;
     children := ch; sourceline := sourceline e |}.
Definition with_tail (t : option str) (e : element) : element :=
  {| tag := tag e; text := text e; tail := t;
     children := children e; sourceline := sourceline e |}.

(** Updating element [el] in place. *)
Definition set_children (s : store) (el : nat) (ch : list nat) : store :=
  alter (with_children ch) el s.
(** [el.tail = t] *)
Definition set_tail (s : store) (el : nat) (t : option str) : store :=
  alter (with_tail t) el s.

(** [parent.index(el)] *)
Definition index_of (s : store) (parent el : nat) : result nat :=
  match list_find (λ c, c = el) (get_children s parent) with
  | Some (i, _) => Ok i
  | None => Raise (ValueError "Element is not a child of this node.")
  end.

(** [parent.insert(idx, n)] for an element [n] that has no parent yet. *)
Definition insert_child (s : store) (parent idx n : nat) : store :=
  let ch := get_children s parent in
  set_children s parent (take idx ch ++ [n] ++ drop idx ch).

(** [parent.remove(el)] *)
Definition remove_child (s : store) (parent el : nat) : result store :=
  i ← index_of s parent el;
  Ok (set_children s parent (delete i (get_children s parent))).

(** The elements of a parsed fragment. They are only read: every use makes
    a deep copy into the tree that is edited. *)
#[warnings="-register-all"]
Inductive xnode :=
| XNode (xtag : str) (xtext xtail : option str) (xline : option nat)
        (xkids : list xnode).

(** [copy.deepcopy(n)]: a fresh element, with fresh copies of its
    descendants; returns the new store and the id of the copy. *)
Fixpoint deepcopy (n : xnode) (s : store) : store * nat :=
  match n with
  | XNode tg tx tl ln kids =>
      let '(s', ids) :=
        (fix copy_all (ks : list xnode) (s : store) : store * list nat :=
           match ks with
           | [] => (s, [])
           | k :: ks' =>
               let '(s1, i) := deepcopy k s in
               let '(s2, ids) := copy_all ks' s1 in
               (s2, i :: ids)
           end) kids s in
      (s' ++ [{| tag := tg; text := tx; tail := tl;
                 children := ids; sourceline := ln |}], length s')
  end.

(** [[copy.deepcopy(n) for n in nodes]] *)
Fixpoint deepcopy_all (nodes : list xnode) (s : store) : store * list nat :=
  match nodes with
  | [] => (s, [])
  | n :: nodes' =>
      let '(s1, i) := deepcopy n s in
      let '(s2, ids) := deepcopy_all nodes' s1 in
      (s2, i :: ids)
  end.

(** *** White space inference *)

(** Python's truth value of an optional string, and [x or d]. *)
Definition truthy (x : option str) : bool :=
  match x with
  | Some (_ :: _) => true
  | _ => false
  end.
Definition or_else (x : option str) (d : str) : str :=
  if truthy x then default [] x else d.

Definition ws_only (text : option str) : bool :=
  match text with
  | Some t => str_eqb (strip t) []
  | None => false
  end.

Definition infer_indent_from (text : option str) : option str :=
  match text with
  | None => None
  | Some t =>
      if str_eqb t [] then None
      else if negb (ws_only text) then None
      else if negb (contains c_nl t) then None
      else Some t
  end.

Definition sibling_indent (s : store) (target : nat) : str :=
  if truthy (infer_indent_from (get_tail s target))
  then or_else (get_tail s target) [c_nl]
  else
    match getparent s target with
    | Some parent =>
        if truthy (infer_indent_from (get_text s parent))
        then or_else (get_text s parent) [c_nl]
        else [c_nl]
    | None => [c_nl]
    end.

Definition child_indent (s : store) (parent : nat) : str :=
  if truthy (infer_indent_from (get_text s parent))
  then or_else (get_text s parent) [c_nl]
  else
    match last (get_children s parent) with
    | Some l =>
        if truthy (infer_indent_from (get_tail s l))
        then or_else (get_tail s l) [c_nl]
        else [c_nl]
    | None => [c_nl]
    end.

Definition set_tails (s : store) (nodes : list nat) (tail : option str) : store :=
  match tail with
  | None => s
  | Some _ => foldl (λ s n, set_tail s n tail) s nodes
  end.

(** *** The structural mutators *)

(** [for n in clones: parent.insert(idx, n); idx += 1] *)
Definition insert_children (s : store) (parent idx : nat) (clones : list nat)
    : store :=
  (foldl (λ '(s, idx) n, (insert_child s parent idx n, S idx)) (s, idx) clones).1.

(** [for n in clones: el.append(n)] *)
Definition append_children (s : store) (el : nat) (clones : list nat) : store :=
  foldl (λ s n, insert_child s el (length (get_children s el)) n) s clones.

(** The body of the loop of [apply_insert]; the state is the tree and the
    count [changed]. *)
Definition insert_step (nodes : list xnode) (position : str)
    (indent_override : option str) (st : store * nat) (el : nat)
    : result (store * nat) :=
  let '(s, changed) := st in
  let parent := getparent s el in
  if bool_decide (position = py "before" ∨ position = py "after") then
    match parent with
    | None => fail "cannot insert before/after root element"
    | Some parent =>
        idx ← index_of s parent el;
        let idx := if bool_decide (position = py "after") then S idx else idx in
        let '(s, clones) := deepcopy_all nodes s in
        let tail := or_else indent_override (sibling_indent s el) in
        let s := set_tails s clones (Some tail) in
        let s := insert_children s parent idx clones in
        Ok (s, changed + length clones)
    end
  else if bool_decide (position = py "inside-first" ∨ position = py "inside-last") then
    let '(s, clones) := deepcopy_all nodes s in
    let tail := or_else indent_override (child_indent s el) in
    let s := set_tails s clones (Some tail) in
    let s :=
      if bool_decide (position = py "inside-first")
      then insert_children s el 0 clones
      else append_children s el clones in
    Ok (s, changed + length clones)
  else
    Raise (SystemExit 2 (py "unknown insert position: " ++ position)).

Definition apply_insert (elements : list nat) (nodes : list xnode)
    (position : str) (indent_override : option str) (s : store)
    : result (store * nat) :=
  for_each (insert_step nodes position indent_override) (s, 0) elements.

Definition replace_step (nodes : list xnode) (indent_override : option str)
    (st : store * nat) (el : nat) : result (store * nat) :=
  let '(s, changed) := st in
  match getparent s el with
  | None => fail "cannot replace root element"
  | Some parent =>
      idx ← index_of s parent el;
      let '(s, clones) := deepcopy_all nodes s in
      let tail := or_else indent_override (sibling_indent s el) in
      let s := set_tails s clones (Some tail) in
      let s := insert_children s parent idx clones in
      s ← remove_child s parent el;
      Ok (s, changed + 1)
  end.

Definition apply_replace (elements : list nat) (nodes : list xnode)
    (indent_override : option str) (s : store) : result (store * nat) :=
  for_each (replace_step nodes indent_override) (s, 0) elements.

Definition delete_step (st : store * nat) (el : nat) : result (store * nat) :=
  let '(s, changed) := st in
  match getparent s el with
  | None => fail "cannot delete root element"
  | Some parent =>
      s ← remove_child s parent el;
      Ok (s, changed + 1)
  end.

Definition apply_delete (elements : list nat) (s : store) : result (store * nat) :=
  for_each delete_step (s, 0) elements.

(** *** Reading the tree *)

(** [str(node.tag)] *)
Definition tag_of (s : store) (node : nat) : str :=
  default [] (tag <$> s !! node).

(** Python's order on [str]: by code point, a proper prefix first. *)
Fixpoint str_ltb (a b : str) : bool :=
  match a, b with
  | _, [] => false
  | [], _ :: _ => true
  | x :: a', y :: b' => (x <? y)%N || (x =? y)%N && str_ltb a' b'
  end.

(** The order [sorted] uses on the items of a dict of counts: tuples are
    compared by tag, then by count. *)
Definition item_le (a b : str * nat) : Prop :=
  str_ltb a.1 b.1 = true ∨ a.1 = b.1 ∧ a.2 ≤ b.2.

#[global] Instance item_le_dec : RelDecision item_le :=
  λ a b, decide (str_ltb a.1 b.1 = true ∨ a.1 = b.1 ∧ a.2 ≤ b.2).

(** The dict [counts] is filled child by child; [sorted(counts.items())]
    orders its items. *)
Definition child_tag_counts (s : store) (el : nat) : list (str * nat) :=
  let counts :=
    foldl (λ (counts : gmap str nat) child,
             let tag := tag_of s child in
             <[tag := default 0 (counts !! tag) + 1]> counts)
          ∅ (get_children s el) in
  merge_sort item_le (map_to_list counts).

(** [sep.join(parts)] *)
Fixpoint join (sep : str) (parts : list str) : str :=
  match parts with
  | [] => []
  | [p] => p
  | p :: parts' => p ++ sep ++ join sep parts'
  end.

(** [items[:n]], with Python's reading of a negative bound. *)
Definition slice_to {A} (items : list A) (n : Z) : list A :=
  if (0 <=? n)%Z then take (Z.to_nat n) items
  else take (length items - Z.to_nat (- n)) items.

Section outline.

(** The attributes of an element, which [element] does not record, and
    Python's [repr] of a [str]. *)
Variable attrib : nat → gmap str str.
Variable repr : str → str.

Definition format_attrs (el : nat) (attr_names : list str) : str :=
  if bool_decide (attr_names = []) then []
  else
    let parts :=
      omap (λ name, (λ v, name ++ py "=" ++ repr v) <$> attrib el !! name)
           attr_names in
    if bool_decide (parts = []) then []
    else py " " ++ join (py " ") parts.

(** The [for] loop over the children in [emit] and in [outline_lines]: it
    stops at the first child for which [emit] returns [False]. The state is
    [(lines, count)]. *)
Fixpoint emit_each (emit1 : nat → list str * nat → bool * (list str * nat))
    (nodes : list nat) (st : list str * nat) : bool * (list str * nat) :=
  match nodes with
  | [] => (true, st)
  | child :: nodes' =>
      let '(ok, st) := emit1 child st in
      if ok then emit_each emit1 nodes' st else (false, st)
  end.

(** The inner function [emit] of [outline_lines]. It calls itself only
    while [depth < max_depth]: [levels] is what is left of [max_depth] at
    [depth], so the test [depth >= max_depth] reads [levels = 0]. *)
Fixpoint emit (s : store) (attr_names : list str)
    (max_children max_nodes : option Z) (levels : nat) (depth : nat)
    (node : nat) (st : list str * nat) : bool * (list str * nat) :=
  let '(lines, count) := st in
  let full :=
    match max_nodes with
    | Some n => (n <=? Z.of_nat count)%Z
    | None => false
    end in
  if full then (false, st)
  else
    let indent := concat (replicate depth (py "  ")) in
    let attr_str := format_attrs node attr_names in
    let lines :=
      lines ++ [indent ++ py "<" ++ tag_of s node ++ py ">" ++ attr_str] in
    let count := S count in
    match levels with
    | 0 => (true, (lines, count))
    | S levels =>
        let children := get_children s node in
        let '(visible, extra) :=
          match max_children with
          | Some mc =>
              if (mc <? Z.of_nat (length children))%Z
              then (slice_to children mc, (Z.of_nat (length children) - mc)%Z)
              else (children, 0%Z)
          | None => (children, 0%Z)
          end in
        let '(ok, (lines, count)) :=
          emit_each (emit s attr_names max_children max_nodes levels (S depth))
                    visible (lines, count) in
        if ok then
          if bool_decide (extra ≠ 0%Z)
          then (true, (lines ++ [indent ++ py "  ... (+" ++ py (pretty extra)
                                 ++ py " more)"], count))
          else (true, (lines, count))
        else (false, (lines, count))
    end.

Definition outline_lines (s : store) (el : nat) (max_depth : Z)
    (attr_names : list str) (max_children max_nodes : option Z)
    (include_root : bool) : list str :=
  let emit0 :=
    emit s attr_names max_children max_nodes (Z.to_nat max_depth) 0 in
  if include_root then (emit0 el ([], 0)).2.1
  else (emit_each emit0 (get_children s el) ([], 0)).2.1.

End outline.

(** *** Setting the text in the tree *)




End Lib.

(** ** [main.py]: the structural commands *)

Module Main.
Import Py Lib.

(** The parsed document: the tree, its root, and what [tree.docinfo]
    reports. *)
Record document := {
  doc_store : store;
  doc_root : nat;
  xml_version : str;
  docinfo_encoding : option str;
  docinfo_doctype : str;
}.

Definition with_store (d : document) (s : store) : document :=
  {| doc_store := s; doc_root := doc_root d; xml_version := xml_version d;
     docinfo_encoding := docinfo_encoding d;
     docinfo_doctype := docinfo_doctype d |}.

(** What an XPath query returns: elements of the tree, or other values
    (attribute values, text, numbers). *)
Inductive item :=
| Element (el : nat)
| Scalar (v : str).

(** The files and the lines printed so far. *)
Record world := {
  files : gmap string str;
  stdout : list string;
}.

(** A computation that reads and writes the world and may raise. *)
Definition io (A : Type) : Type := world → result A * world.

#[global] Instance io_ret : MRet io := λ A a w, (Ok a, w).
#[global] Instance io_bind : MBind io := λ A B f m w,
  match m w with
  | (Ok a, w') => f a w'
  | (Raise e, w') => (Raise e, w')
  end.

Definition lift {A} (r : result A) : io A := λ w, (r, w).
Definition print (line : string) : io () := λ w,
  (Ok (), {| files := files w; stdout := stdout w ++ [line] |}).
Definition write_file (path : string) (data : str) : io () := λ w,
  (Ok (), {| files := <[path := data]> (files w); stdout := stdout w |}).
Definition read_bytes (path : string) : io str := λ w,
  match files w !! path with
  | Some data => (Ok data, w)
  | None => (Raise (OSError "No such file or directory"), w)
  end.

(** A [for] loop over computations. *)
Fixpoint for_each_io {A} (body : A → io ()) (l : list A) : io () :=
  match l with
  | [] => mret ()
  | x :: l' => body x ≫= λ _, for_each_io body l'
  end.

(** ASCII upper-casing: [str.upper] on the name of an encoding. *)
Definition upper (s : str) : str :=
  (λ c, if (97 <=? c)%N && (c <=? 122)%N then (c - 32)%N else c) <$> s.

Record args := {
  paths : list string;
  xpath : str;
  ns : list str;
  limit_ : option Z;
  huge : bool;
  recover : bool;
  in_place : bool;
  diff : bool;
}.

Section collaborators.

(** The collaborators the editor consumes as black boxes. *)

(** [etree.parse]; [None] is an [XMLSyntaxError]. *)
Variable etree_parse : str → bool → bool → option document.
(** [tree.xpath]; [None] is an [XPathEvalError]. *)
Variable tree_xpath : document → str → gmap str str → option (list item).
(** The serializer's output for the document's nodes, in an encoding. *)
Variable write_nodes : document → str → str.
(** [glob.glob(raw, recursive=True)] followed by [sorted]. *)
Variable sorted_glob : gmap string str → string → list string.
(** The lines of [difflib.unified_diff], as [show_diff] prints them. *)
Variable unified_diff : string → str → str → string.

(** [tree.write(buf, encoding, xml_declaration, pretty_print=False,
    doctype)] of lxml: the declaration is written afresh, with single
    quotes, the document's version and the upper-cased encoding name; a
    doctype that is given is written on a line of its own. *)
Definition tree_write (tree : document) (encoding : str)
    (xml_declaration : bool) (doctype : option str) : str :=
  (if xml_declaration
   then py "<?xml version='" ++ xml_version tree ++ py "' encoding='" ++
        upper encoding ++ py "'?>" ++ [c_nl]
   else []) ++
  (match doctype with
   | Some d => d ++ [c_nl]
   | None => []
   end) ++
  write_nodes tree (upper encoding).

Definition serialize (tree : document) (has_decl : bool) (enc : option str)
    : str :=
  let encoding := or_else enc (or_else (docinfo_encoding tree) (py "utf-8")) in
  let doctype :=
    if truthy (Some (docinfo_doctype tree))
    then Some (docinfo_doctype tree) else None in
  tree_write tree encoding has_decl doctype.

Definition parse_doc (path : string) (huge recover : bool)
    : io (document * str * bool * option str) :=
  data ← read_bytes path;
  let '(has_decl, enc) := detect_decl_and_encoding data in
  match etree_parse data huge recover with
  | None =>
      lift (Raise (SystemExit 2 (py ("XML parse failed for " +:+ path))))
  | Some tree => mret (tree, data, has_decl, enc)
  end.

Definition has_glob_char (raw : string) : bool :=
  existsb (λ ch, contains ch (py raw)) (py "*?[]").

(** The second loop of [expand_paths]: drop repeated paths. *)
Fixpoint dedup (seen : gset string) (paths : list string) : list string :=
  match paths with
  | [] => []
  | p :: paths' =>
      if decide (p ∈ seen) then dedup seen paths'
      else p :: dedup ({[p]} ∪ seen) paths'
  end.

Definition expand_paths (raw_paths : list string) : io (list string) := λ w,
  let paths :=
    flat_map (λ raw, if has_glob_char raw then sorted_glob (files w) raw
                     else [raw]) raw_paths in
  (Ok (dedup ∅ paths), w).

Definition parse_ns (ns_items : list str) : result (gmap str str) :=
  for_each (λ (ns_map : gmap str str) item,
    match find_in [c_eq] item with
    | None => Raise (SystemExit 2 (py "namespace must be prefix=uri: " ++ item))
    | Some i =>
        let prefix := take i item in
        let uri := drop (S i) item in
        if bool_decide (prefix = []) || bool_decide (uri = [])
        then Raise (SystemExit 2 (py "namespace must be prefix=uri: " ++ item))
        else Ok (<[prefix := uri]> ns_map)
    end) ∅ ns_items.

Definition select (tree : document) (xpath : str) (ns_map : gmap str str)
    : result (list item) :=
  match tree_xpath tree xpath ns_map with
  | Some items => Ok items
  | None => fail "XPath error"
  end.

Definition ensure_elements (items : list item) : result (list nat) :=
  let elements :=
    omap (λ x, match x with Element el => Some el | Scalar _ => None end) items in
  if negb (length elements =? length items)
  then fail "XPath must select elements for this operation"
  else Ok elements.

(** [items[:limit_count]], with Python's reading of a negative bound. *)
Definition limit {A} (items : list A) (limit_count : option Z) : list A :=
  match limit_count with
  | None => items
  | Some n =>
      if (0 <=? n)%Z then take (Z.to_nat n) items
      else take (length items - Z.to_nat (- n)) items
  end.

Definition summarize (path : string) (matches changed : nat) (wrote : bool)
    : io () :=
  if changed =? 0
  then print (path +:+ ": " +:+ pretty matches +:+ " match(es), no changes")
  else
    let action := if wrote then "written" else "dry-run" in
    print (path +:+ ": " +:+ pretty matches +:+ " match(es), " +:+
           pretty changed +:+ " change(s) (" +:+ action +:+ ")").

Definition show_diff (path : string) (original updated : str) : io () :=
  print (unified_diff path original updated).

(** A structural mutator edits the tree and counts its changes. *)
Definition mutator := list nat → store → result (store * nat).

(** The body of the loop of [mutate_files]. *)
Definition mutate_file (a : args) (ns_map : gmap str str) (m : mutator)
    (path : string) : io () :=
  r ← parse_doc path (huge a) (recover a);
  let '(tree, original, has_decl, enc) := r in
  items ← lift (select tree (xpath a) ns_map);
  let items := limit items (limit_ a) in
  elements ← lift (ensure_elements items);
  r ← lift (m elements (doc_store tree));
  let '(s, changed) := r : store * nat in
  let updated := serialize (with_store tree s) has_decl enc in
  let write := negb (changed =? 0) && in_place a in
  _ ← (if write then write_file path updated else mret ());
  _ ← (if diff a && negb (changed =? 0)
       then show_diff path original updated else mret ());
  summarize path (length elements) changed write.

Definition mutate_files (a : args) (m : mutator) : io Z :=
  ns_map ← lift (parse_ns (ns a));
  paths ← expand_paths (paths a);
  _ ← (if bool_decide (paths = []) then lift (fail "no files matched")
       else mret ());
  _ ← for_each_io (mutate_file a ns_map m) paths;
  mret 0%Z.

(** [cmd_replace] and [cmd_delete] once the fragment is read and
    [--reformat-ok] is given. *)
Definition cmd_insert (a : args) (nodes : list xnode) (position : str)
    (indent : option str) : io Z :=
  mutate_files a (λ elements, apply_insert elements nodes position indent).
Definition cmd_replace (a : args) (nodes : list xnode) (indent : option str)
    : io Z :=
  mutate_files a (λ elements, apply_replace elements nodes indent).
Definition cmd_delete (a : args) : io Z :=
  mutate_files a apply_delete.

(** **** The surgical commands *)

(** [data.decode(encoding)], and with [replace] on
    [data.decode(encoding, errors=...)] for the error handler of that
    name. A [UnicodeDecodeError] is the [ValueError] it is a subclass of;
    a codec raises no other [ValueError]. *)
Variable bytes_decode : str → str → bool → result str.
(** [text.encode(encoding)] *)
Variable str_encode : str → str → result str.
(** What [f.read()] returns for the bytes of a file opened for reading as
    text in utf-8. *)
Variable read_utf8 : str → result str.

Definition decode_text (data : str) (enc : option str) : result str :=
  let encoding := or_else enc (py "utf-8") in
  match bytes_decode data encoding false with
  | Raise (ValueError _) => bytes_decode data encoding true
  | r => r
  end.

Definition encode_text (text : str) (enc : option str) : result str :=
  let encoding := or_else enc (py "utf-8") in
  str_encode text encoding.

Definition read_text_arg (value : option str) (value_file : option string)
    : io str :=
  if bool_decide (value = None ∧ value_file = None)
  then lift (fail "provide --value or --value-file")
  else if bool_decide (value ≠ None ∧ value_file ≠ None)
  then lift (fail "use only one of --value or --value-file")
  else
    match value_file with
    | Some f =>
        if bool_decide (f = EmptyString) then mret (or_else value [])
        else data ← read_bytes f; lift (read_utf8 data)
    | None => mret (or_else value [])
    end.

(** The element an id names in the tree; the ids an XPath query returns
    name elements of the tree it was run on. *)
Definition element_at (tree : document) (el : nat) : element :=
  default {| tag := []; text := None; tail := None; children := [];
             sourceline := None |} (doc_store tree !! el).

(** The body of the loop of [cmd_set_text]. *)
Definition set_text_file (a : args) (ns_map : gmap str str) (value : str)
    (path : string) : io () :=
  r ← parse_doc path (huge a) (recover a);
  let '(tree, original, _, enc) := r in
  items ← lift (select tree (xpath a) ns_map);
  let items := limit items (limit_ a) in
  elements ← lift (ensure_elements items);
  text ← lift (decode_text original enc);
  r ← lift (apply_text_surgical text (element_at tree <$> elements) value);
  let '(updated_text, changed) := r : str * nat in
  updated ← lift (encode_text updated_text enc);
  let write := negb (changed =? 0) && in_place a in
  _ ← (if write then write_file path updated else mret ());
  _ ← (if diff a && negb (changed =? 0)
       then show_diff path original updated else mret ());
  summarize path (length elements) changed write.

Definition cmd_set_text (a : args) (value : option str)
    (value_file : option string) : io Z :=
  value ← read_text_arg value value_file;
  ns_map ← lift (parse_ns (ns a));
  paths ← expand_paths (paths a);
  _ ← (if bool_decide (paths = []) then lift (fail "no files matched")
       else mret ());
  _ ← for_each_io (set_text_file a ns_map value) paths;
  mret 0%Z.

(** The body of the loop of [cmd_set_attr]. *)
Definition set_attr_file (a : args) (ns_map : gmap str str) (name value : str)
    (path : string) : io () :=
  r ← parse_doc path (huge a) (recover a);
  let '(tree, original, _, enc) := r in
  items ← lift (select tree (xpath a) ns_map);
  let items := limit items (limit_ a) in
  elements ← lift (ensure_elements items);
  text ← lift (decode_text original enc);
  r ← lift (apply_attr_surgical text (element_at tree <$> elements)
              name (Some value) true);
  let '(updated_text, changed) := r : str * nat in
  updated ← lift (encode_text updated_text enc);
  let write := negb (changed =? 0) && in_place a in
  _ ← (if write then write_file path updated else mret ());
  _ ← (if diff a && negb (changed =? 0)
       then show_diff path original updated else mret ());
  summarize path (length elements) changed write.

Definition cmd_set_attr (a : args) (name : str) (value : option str)
    (value_file : option string) : io Z :=
  value ← read_text_arg value value_file;
  ns_map ← lift (parse_ns (ns a));
  paths ← expand_paths (paths a);
  _ ← (if bool_decide (paths = []) then lift (fail "no files matched")
       else mret ());
  _ ← for_each_io (set_attr_file a ns_map name value) paths;
  mret 0%Z.

(** The body of the loop of [cmd_del_attr]. *)
Definition del_attr_file (a : args) (ns_map : gmap str str) (name : str)
    (path : string) : io () :=
  r ← parse_doc path (huge a) (recover a);
  let '(tree, original, _, enc) := r in
  items ← lift (select tree (xpath a) ns_map);
  let items := limit items (limit_ a) in
  elements ← lift (ensure_elements items);
  text ← lift (decode_text original enc);
  r ← lift (apply_attr_surgical text (element_at tree <$> elements)
              name None false);
  let '(updated_text, changed) := r : str * nat in
  updated ← lift (encode_text updated_text enc);
  let write := negb (changed =? 0) && in_place a in
  _ ← (if write then write_file path updated else mret ());
  _ ← (if diff a && negb (changed =? 0)
       then show_diff path original updated else mret ());
  summarize path (length elements) changed write.

Definition cmd_del_attr (a : args) (name : str) : io Z :=
  ns_map ← lift (parse_ns (ns a));
  paths ← expand_paths (paths a);
  _ ← (if bool_decide (paths = []) then lift (fail "no files matched")
       else mret ());
  _ ← for_each_io (del_attr_file a ns_map name) paths;
  mret 0%Z.

End collaborators.

End Main.

(** ** Vocabulary of the statements *)

Import Py Lib Main.

(** A childless element with a known source line. *)
Definition leaf (t : string) (line : nat) : element :=
  {| tag := py t; text := None; tail := None; children := [];
     sourceline := Some line |}.

(** Where the surgical mutators find the opening tag of [el] in [text], if
    they do: the line check followed by [find_start_tag_span]. *)
Definition tag_span (text : str) (el : element) : option (nat * nat) :=
  let starts := line_starts text in
  let line := default 0 (sourceline el) in
  if decide (line ≤ 0 ∨ length starts < line) then None
  else find_start_tag_span text (default 0 (starts !! (line - 1)))
                           (local_tag (tag el)).

(** The text of the tag found at a span. *)
Definition tag_text_at (text : str) (span : nat * nat) : str :=
  take (S span.2 - span.1) (drop span.1 text).

(** The source line of [el] is unknown or past the last line of [text], or
    no opening tag ending in [>] is found from that line on. *)
Definition unlocatable (text : str) (el : element) : Prop :=
  let line := default 0 (sourceline el) in
  line = 0 ∨ length (line_starts text) < line ∨
  find_start_tag_span text (default 0 (line_starts text !! (line - 1)))
                      (local_tag (tag el)) = None.




(** [text] is white space only and holds a newline. *)
Definition pure_ws_nl (text : option str) : bool :=
  match text with
  | Some t => forallb isspace t && contains c_nl t
  | None => false
  end.

(** The trailing text of a new sibling of [target], in the words of the
    specification: the target's trailing text if that is white space with a
    newline, else the parent's leading text under the same rule, else a
    single newline. *)
Definition spec_sibling_tail (s : store) (target : nat) : str :=
  if pure_ws_nl (get_tail s target) then default [] (get_tail s target)
  else
    match getparent s target with
    | Some parent =>
        if pure_ws_nl (get_text s parent) then default [] (get_text s parent)
        else [c_nl]
    | None => [c_nl]
    end.



(** Induction on a fragment node with the hypothesis for its children. *)
Fixpoint xnode_induction (P : xnode → Prop)
    (H : ∀ tg tx tl ln kids, Forall P kids → P (XNode tg tx tl ln kids))
    (n : xnode) : P n :=
  match n with
  | XNode tg tx tl ln kids =>
      H tg tx tl ln kids
        ((fix all (ks : list xnode) : Forall P ks :=
            match ks with
            | [] => List.Forall_nil P
            | k :: ks' =>
                List.Forall_cons P k ks' (xnode_induction P H k) (all ks')
            end) kids)
  end.

(** [s'] extends [s] by elements whose children are all new, and the ids
    [ids] are new. *)
Definition extends_fresh (s s' : store) (ids : list nat) : Prop :=
  ∃ added, s' = s ++ added
    ∧ Forall (λ e, Forall (λ c, length s ≤ c) (children e)) added
    ∧ Forall (λ i, length s ≤ i < length s') ids.

(** [r] is an element of the tree and no element lists it as a child. *)
Definition is_root (s : store) (r : nat) : Prop :=
  r < length s ∧ getparent s r = None.

(** From [s] to [s'] child lists only lose members or gain new ids. *)
Definition grows (s s' : store) : Prop :=
  length s ≤ length s'
  ∧ ∀ j c, c ∈ get_children s' j → c ∈ get_children s j ∨ length s ≤ c.

(** *** A small installation

    Stand-ins for the collaborators, to run the commands on concrete files:
    a parser that knows one document, a query evaluator that knows two
    paths, and a plain writer of the tree. *)

Definition sample_bytes : str := py "<r><a/></r>".

Definition sample_store : store :=
  [{| tag := py "r"; text := None; tail := None; children := [1];
      sourceline := Some 1 |};
   {| tag := py "a"; text := None; tail := None; children := [];
      sourceline := Some 1 |}].

Definition sample_doc : document :=
  {| doc_store := sample_store; doc_root := 0; xml_version := py "1.0";
     docinfo_encoding := Some (py "UTF-8"); docinfo_doctype := [] |}.

(** A source that declares ISO-8859-1, with double quotes. *)
Definition latin1_decl : str :=
  py "<?xml version=" ++ [c_dquote] ++ py "1.0" ++ [c_dquote] ++
  py " encoding=" ++ [c_dquote] ++ py "ISO-8859-1" ++ [c_dquote] ++ py "?>".
Definition latin1_source : str := latin1_decl ++ [c_nl] ++ sample_bytes.
Definition latin1_doc : document :=
  {| doc_store := sample_store; doc_root := 0; xml_version := py "1.0";
     docinfo_encoding := Some (py "ISO-8859-1"); docinfo_doctype := [] |}.

Definition sample_parse (data : str) (huge recover : bool) : option document :=
  if bool_decide (data = sample_bytes) then Some sample_doc
  else if bool_decide (data = latin1_source) then Some latin1_doc
  else None.

Definition sample_xpath (tree : document) (xp : str) (ns_map : gmap str str)
    : option (list item) :=
  if bool_decide (xp = py "/r") then Some [Element (doc_root tree)]
  else if bool_decide (xp = py "/r/a")
  then Some (Element <$> get_children (doc_store tree) (doc_root tree))
  else Some [].

Fixpoint write_element (fuel : nat) (s : store) (el : nat) : str :=
  match fuel with
  | 0 => []
  | S fuel =>
      match s !! el with
      | None => []
      | Some e =>
          [c_lt] ++ tag e ++ [c_gt] ++ default [] (text e) ++
          flat_map (write_element fuel s) (children e) ++
          py "</" ++ tag e ++ [c_gt] ++ default [] (tail e)
      end
  end.

Definition sample_write (tree : document) (encoding : str) : str :=
  write_element (length (doc_store tree)) (doc_store tree) (doc_root tree).

Definition sample_glob (fs : gmap string str) (raw : string) : list string := [].
Definition sample_diff (path : string) (original updated : str) : string := path.

Definition sample_world : world :=
  {| files := {[ "a.xml" := sample_bytes; "bad.xml" := py "<r>";
                 "latin1.xml" := latin1_source ]};
     stdout := [] |}.

Definition sample_args (ps : list string) (xp : string) : args :=
  {| paths := ps; xpath := py xp; ns := []; limit_ := None;
     huge := false; recover := false; in_place := true; diff := false |}.

(** What [escape_attr] writes for one character of the value. *)
Definition escape_char (q c : N) : str :=
  if (c =? c_amp)%N then py "&amp;"
  else if (c =? c_gt)%N then py "&gt;"
  else if (c =? c_lt)%N then py "&lt;"
  else if (c =? q)%N then
    (if (q =? c_dquote)%N then py "&quot;" else py "&apos;")
  else [c].



(** A tree indented by two spaces: [r] holds [a] and [b], each on a line
    of its own. *)
Definition indented_store : store :=
  [{| tag := py "r"; text := Some ([c_nl] ++ py "  "); tail := None;
      children := [1; 2]; sourceline := Some 1 |};
   {| tag := py "a"; text := None; tail := Some ([c_nl] ++ py "  ");
      children := []; sourceline := Some 2 |};
   {| tag := py "b"; text := None; tail := Some [c_nl];
      children := []; sourceline := Some 3 |}].

(** What [set_attr_in_tag] inserts for an attribute that is not there yet:
    a space, the name, the equals sign, and the escaped value between
    double quotes. *)
Definition attr_insert (name value : str) : str :=
  py " " ++ name ++ py "=" ++ [c_dquote] ++
  escape_attr value [c_dquote] ++ [c_dquote].


(** [item] reads [prefix=uri]: the prefix holds no equals sign, and neither
    side is empty. *)
Definition ns_binding (prefix uri item : str) : Prop :=
  item = prefix ++ [c_eq] ++ uri ∧ (c_eq ∉ prefix) ∧ prefix ≠ [] ∧ uri ≠ [].

(** The body of the loop of [parse_ns]. *)
Definition ns_step (ns_map : gmap str str) (item : str) : result (gmap str str) :=
  match find_in [c_eq] item with
  | None => Raise (SystemExit 2 (py "namespace must be prefix=uri: " ++ item))
  | Some i =>
      let prefix := take i item in
      let uri := drop (S i) item in
      if bool_decide (prefix = []) || bool_decide (uri = [])
      then Raise (SystemExit 2 (py "namespace must be prefix=uri: " ++ item))
      else Ok (<[prefix := uri]> ns_map)
  end.

(** How often [t] stands in [tags]. *)
Definition occurrences (t : str) (tags : list str) : nat :=
  length (filter (λ x, x = t) tags).

(** A line of an outline that shows an element: after its indentation it
    starts with [<]. *)
Definition is_node_line (line : str) : bool :=
  startswith (py "<") (lstrip line).

(** What [emit] keeps of its state [(lines, count)]: [count] is the number
    of element lines, it stays within [max_nodes], and at most one other
    line has been written per element ([k] more may still come). *)
Definition outline_inv (max_nodes : option Z) (k : nat) (st : list str * nat)
    : Prop :=
  length (filter (λ l, is_node_line l = true) st.1) = st.2
  ∧ (∀ n, max_nodes = Some n → st.2 ≤ Z.to_nat n)
  ∧ length st.1 + k ≤ 2 * st.2.

(** What a run from [w] to [w'] may have done to the files: without
    [--in-place] nothing, and with it nothing outside [targets]. *)
Definition writes_only (a : args) (targets : list string) (w w' : world)
    : Prop :=
  ∀ p, in_place a = false ∨ p ∉ targets → files w' !! p = files w !! p.

(** Codecs for the sample files, which are ASCII: bytes and text agree. *)
Definition sample_decode (data encoding : str) (replace : bool) : result str :=
  Ok data.
Definition sample_encode (text encoding : str) : result str := Ok text.
Definition sample_read_utf8 (data : str) : result str := Ok data.

(** ** Properties *)

(** *** Editing one tag *)

(** Quote preservation on a plain value. *)
Example set_attr_keeps_single_quotes :
  set_attr_in_tag (py "<a id='x'/>") (py "id") (py "y")
  = Ok (py "<a id='y'/>", true).
Proof. vm_compute. reflexivity. Qed.

(** Insertion fallback. *)
Example set_attr_inserts_when_absent :
  set_attr_in_tag (py "<a/>") (py "id") (py "5")
  = Ok (py "<a id=" ++ [c_dquote] ++ py "5" ++ [c_dquote] ++ py "/>", true).
Proof. vm_compute. reflexivity. Qed.

(** C2. An existing attribute is rewritten through [pattern.sub] with the
    new text as a replacement template, so backslash escapes in the value
    are interpreted: for the value [C:\temp] the attribute does not receive
    the escaped value but [C:], a TAB and [emp]. *)
Theorem C2_set_attr_value_read_as_template :
  set_attr_in_tag (py "<a id='x'/>") (py "id") (py "C:\temp")
  = Ok (py "<a id='C:" ++ [9%N] ++ py "emp'/>", true)
  ∧ escape_attr (py "C:\temp") [c_squote] = py "C:\temp"
  ∧ py "<a id='C:" ++ [9%N] ++ py "emp'/>"
    ≠ py "<a id='" ++ escape_attr (py "C:\temp") [c_squote] ++ py "'/>".
Proof. vm_compute. split_and!; [reflexivity | reflexivity | discriminate]. Qed.

(** A value with a letter after the backslash that is no escape makes the
    call raise. *)
Example set_attr_bad_escape_raises :
  set_attr_in_tag (py "<a id='x'/>") (py "id") (py "C:\dir")
  = Raise (ReError "bad escape").
Proof. vm_compute. reflexivity. Qed.

(** C3. The pattern's [.] does not match a newline, so an attribute whose
    value holds one is not found again: the second call inserts the
    attribute a second time. *)
Theorem C3_set_attr_twice_duplicates_attribute :
  let value := py "5" ++ [c_nl] in
  let attr := py " id=" ++ [c_dquote] ++ value ++ [c_dquote] in
  set_attr_in_tag (py "<a/>") (py "id") value
  = Ok (py "<a" ++ attr ++ py "/>", true)
  ∧ set_attr_in_tag (py "<a" ++ attr ++ py "/>") (py "id") value
    = Ok (py "<a" ++ attr ++ attr ++ py "/>", true).
Proof. vm_compute. split; reflexivity. Qed.

(** *** set-text on a self-closing tag *)

(** C6. The edit recorded for a self-closing tag carries the inclusive end
    of the tag, and the edits of [apply_text_surgical] are applied with an
    exclusive end: the final [>] of the old tag survives the rewrite. *)
Theorem C6_self_closing_keeps_old_bracket :
  text_edits (py "<note/>") [leaf "note" 1] (py "hi")
  = Ok [(0, 6, py "<note>hi</note>")]
  ∧ apply_text_surgical (py "<note/>") [leaf "note" 1] (py "hi")
    = Ok (py "<note>hi</note>>", 1).
Proof. vm_compute. split; reflexivity. Qed.

(** *** Elements that are skipped *)

Lemma unlocatable_tag_span text el :
  unlocatable text el ↔ tag_span text el = None.
Proof.
  unfold unlocatable, tag_span. cbv zeta.
  case_decide as Hline; [split; [done | intros _; lia] |].
  split; [intros [?|[?|?]]; [lia | lia | done] | auto].
Qed.

Lemma attr_step_span text name value set_value edits seen el :
  attr_step text (line_starts text) name value set_value (edits, seen) el
  = match tag_span text el with
    | None => Ok (edits, seen)
    | Some (start, end_) =>
        if decide (start ∈ seen) then Ok (edits, seen)
        else
          r ← (if set_value
               then set_attr_in_tag (tag_text_at text (start, end_)) name
                                    (default [] value)
               else del_attr_in_tag (tag_text_at text (start, end_)) name);
          if r.2 && negb (str_eqb r.1 (tag_text_at text (start, end_)))
          then Ok (edits ++ [(start, end_, r.1)], {[start]} ∪ seen)
          else Ok (edits, {[start]} ∪ seen)
    end.
Proof.
  unfold attr_step, tag_span. cbv zeta. case_decide; [done |].
  destruct (find_start_tag_span _ _ _) as [[start end_]|]; [| done].
  case_decide; [done |]. unfold tag_text_at; simpl.
  destruct (if set_value then _ else _) as [[new changed]|]; done.
Qed.

Lemma text_step_span text value edits seen el :
  text_step text (line_starts text) value (edits, seen) el
  = if negb (length (children el) =? 0)
    then fail "set-text only supports elements without child elements in surgical mode"
    else
      match tag_span text el with
      | None => Ok (edits, seen)
      | Some (start, end_) =>
          if decide (start ∈ seen) then Ok (edits, seen)
          else if bool_decide (is_Some (re_search self_closing_pattern
                                          (tag_text_at text (start, end_))))
          then
            replacement ←
              re_sub self_closing_pattern 0
                ([c_gt] ++ xml_escape value None ++ py "</" ++
                 local_tag (tag el) ++ [c_gt])
                (tag_text_at text (start, end_)) 0;
            Ok (edits ++ [(start, end_, replacement)], {[start]} ∪ seen)
          else
            match find (py "</" ++ local_tag (tag el) ++ [c_gt]) text (S end_) with
            | None => Ok (edits, {[start]} ∪ seen)
            | Some end_tag_idx =>
                Ok (edits ++ [(S end_, end_tag_idx, xml_escape value None)],
                    {[start]} ∪ seen)
            end
      end.
Proof.
  unfold text_step, tag_span. cbv zeta. destruct (negb _); [done |].
  case_decide; [done |].
  destruct (find_start_tag_span _ _ _) as [[start end_]|]; [| done].
  case_decide; done.
Qed.

Lemma for_each_app {S A} (body : S → A → result S) st l1 l2 :
  for_each body st (l1 ++ l2) = (st' ← for_each body st l1; for_each body st' l2).
Proof.
  revert st. induction l1 as [|x l1 IH]; intros st; simpl; [done |].
  destruct (body st x) as [st'|e]; simpl; [apply IH | done].
Qed.

Lemma for_each_skip {S A} (body : S → A → result S) st l1 x l2 :
  (∀ st, body st x = Ok st) →
  for_each body st (l1 ++ x :: l2) = for_each body st (l1 ++ l2).
Proof.
  intros Hx. rewrite !for_each_app.
  destruct (for_each body st l1) as [st'|e]; simpl; [| done]. by rewrite Hx.
Qed.

(** C10, as the code has it. An element that cannot be located leaves the
    recorded edits and the offsets seen as they were, in both mutators, so
    the mutator returns what it returns without the element; in set-text
    this holds for an element without child elements, and an element with
    child elements is refused with an error before its line is looked at. *)
Theorem C10_unlocatable_element_is_skipped text el :
  unlocatable text el →
  (∀ name value set_value,
     (∀ st, attr_step text (line_starts text) name value set_value st el = Ok st)
     ∧ ∀ before after,
         apply_attr_surgical text (before ++ el :: after) name value set_value
         = apply_attr_surgical text (before ++ after) name value set_value)
  ∧ (children el = [] → ∀ value,
       (∀ st, text_step text (line_starts text) value st el = Ok st)
       ∧ ∀ before after,
           apply_text_surgical text (before ++ el :: after) value
           = apply_text_surgical text (before ++ after) value)
  ∧ (children el ≠ [] → ∀ value st,
       is_ok (text_step text (line_starts text) value st el) = false).
Proof.
  intros Hskip%unlocatable_tag_span. split_and!.
  - intros name value set_value.
    assert (∀ st, attr_step text (line_starts text) name value set_value st el
                  = Ok st) as Hstep.
    { intros [edits seen]. by rewrite attr_step_span, Hskip. }
    split; [done |]. intros before after.
    unfold apply_attr_surgical, attr_edits. by rewrite for_each_skip.
  - intros Hleaf value.
    assert (∀ st, text_step text (line_starts text) value st el = Ok st)
      as Hstep.
    { intros [edits seen]. by rewrite text_step_span, Hleaf, Hskip. }
    split; [done |]. intros before after.
    unfold apply_text_surgical, text_edits. by rewrite for_each_skip.
  - intros Hkids value [edits seen]. rewrite text_step_span.
    destruct (children el); [done |]. reflexivity.
Qed.

(** A line that starts at the end of the text (the text ends with a
    newline and the line is the one after it) holds no tag: an element
    reported there is unlocatable too. *)
Lemma line_at_end_is_unlocatable text el :
  line_starts text !! (default 0 (sourceline el) - 1) = Some (length text) →
  unlocatable text el.
Proof.
  intros Hline. right. right. rewrite Hline. simpl.
  unfold find_start_tag_span, find. rewrite !decide_True by done.
  by rewrite drop_all.
Qed.

Lemma C10_unlocatable_element_is_skipped_witness :
  let text := py "<a>x</a>" in
  let el := {| tag := py "a"; text := Some (py "x"); tail := None;
               children := []; sourceline := None |} in
  apply_attr_surgical text [el; leaf "a" 1] (py "k") (Some (py "v")) true
  = apply_attr_surgical text [leaf "a" 1] (py "k") (Some (py "v")) true
  ∧ apply_text_surgical text [el; leaf "a" 1] (py "v")
    = apply_text_surgical text [leaf "a" 1] (py "v").
Proof.
  intros text el.
  assert (unlocatable text el) as H by (left; reflexivity).
  pose proof (C10_unlocatable_element_is_skipped text el H) as (Ha & Ht & _).
  split.
  - exact (proj2 (Ha (py "k") (Some (py "v")) true) [] [leaf "a" 1]).
  - exact (proj2 (Ht eq_refl (py "v")) [] [leaf "a" 1]).
Defined.

(** C10 as stated fails in set-text: an element with a child element and no
    known source line is not skipped, the call raises. *)
Lemma C10_unknown_line_with_children_raises :
  let el := {| tag := py "a"; text := None; tail := None;
               children := [1]; sourceline := None |} in
  unlocatable (py "<a><b/></a>") el
  ∧ apply_text_surgical (py "<a><b/></a>") [el] (py "v")
    = fail "set-text only supports elements without child elements in surgical mode".
Proof. split; [left; reflexivity | vm_compute; reflexivity]. Qed.

(** *** set-text without a closing tag *)



(** *** Applying the edits *)











Lemma scan_tag_bounds q i rest j :
  scan_tag q i rest = Some j → i ≤ j < i + length rest.
Proof.
  revert q i.
  induction rest as [|ch rest IH]; intros q i; simpl; [done |].
  repeat case_match; try (intros [= <-]; lia);
    intros ?%IH; lia.
Qed.

Lemma find_start_tag_span_bounds text line_start tg start end_ :
  find_start_tag_span text line_start tg = Some (start, end_) →
  start ≤ end_ < length text.
Proof.
  unfold find_start_tag_span.
  destruct (match find _ _ _ with Some _ => _ | None => _ end) as [st|];
    simpl; [| done].
  destruct (scan_tag None st (drop st text)) as [i|] eqn:Hscan; simpl; [| done].
  intros [= <- <-]. apply scan_tag_bounds in Hscan.
  rewrite length_drop in Hscan. lia.
Qed.

Lemma tag_span_bounds text el start end_ :
  tag_span text el = Some (start, end_) → start ≤ end_ < length text.
Proof.
  unfold tag_span. cbv zeta. case_decide; [done |].
  apply find_start_tag_span_bounds.
Qed.










(** *** White space inference *)

Lemma lstrip_nil s : lstrip s = [] ↔ forallb isspace s = true.
Proof.
  induction s as [|c s IH]; simpl; [done |].
  destruct (isspace c); simpl; [done |]. split; done.
Qed.

Lemma lstrip_all_space s : forallb isspace (lstrip s) = true → lstrip s = [].
Proof.
  induction s as [|c s IH]; simpl; [done |].
  destruct (isspace c) eqn:Hc; [done |]. simpl. by rewrite Hc.
Qed.

Lemma forallb_reverse {A} (f : A → bool) l :
  forallb f (reverse l) = forallb f l.
Proof.
  induction l as [|x l IH]; simpl; [done |].
  rewrite reverse_cons, forallb_app, IH. simpl. destruct (f x), (forallb f l); done.
Qed.

Lemma strip_nil s : strip s = [] ↔ forallb isspace s = true.
Proof.
  unfold strip, rstrip. split.
  - intros H. apply (f_equal reverse) in H. rewrite reverse_involutive in H.
    change (reverse []) with (@nil N) in H.
    apply lstrip_nil in H. rewrite forallb_reverse in H.
    apply lstrip_nil. by apply lstrip_all_space.
  - intros H%lstrip_nil. by rewrite H.
Qed.

Lemma infer_indent_from_pure text :
  truthy (infer_indent_from text) = pure_ws_nl text.
Proof.
  destruct text as [t|]; simpl; [| done]. unfold str_eqb.
  destruct t as [|c t]; [done |].
  rewrite (bool_decide_eq_false_2 (c :: t = [])) by done.
  case_bool_decide as Hstrip.
  - apply strip_nil in Hstrip. rewrite Hstrip. simpl.
    by destruct (_ || _).
  - destruct (forallb isspace (c :: t)) eqn:Hall; [| done].
    by apply strip_nil in Hall.
Qed.

Lemma pure_ws_nl_or_else text d :
  pure_ws_nl text = true → or_else text d = default [] text.
Proof.
  by destruct text as [[|c t]|].
Qed.

Lemma sibling_indent_spec s target :
  sibling_indent s target = spec_sibling_tail s target.
Proof.
  unfold sibling_indent, spec_sibling_tail.
  rewrite infer_indent_from_pure.
  destruct (pure_ws_nl (get_tail s target)) eqn:Ht;
    [by apply pure_ws_nl_or_else |].
  destruct (getparent s target) as [p|]; [| done].
  rewrite infer_indent_from_pure.
  destruct (pure_ws_nl (get_text s p)) eqn:Hp; [| done].
  by apply pure_ws_nl_or_else.
Qed.

(** *** The tree *)

Lemma get_children_lookup s j e : s !! j = Some e → get_children s j = children e.
Proof. unfold get_children. by intros ->. Qed.

Lemma get_children_set_children s p ch j :
  get_children (set_children s p ch) j
  = if decide (j = p ∧ p < length s) then ch else get_children s j.
Proof.
  unfold get_children, set_children. rewrite list_lookup_alter.
  case_decide as Hpj; subst.
  - destruct (s !! j) eqn:Hj; simpl.
    + apply lookup_lt_Some in Hj. by rewrite decide_True.
    + apply lookup_ge_None in Hj. rewrite decide_False by lia. done.
  - rewrite decide_False by (intros [-> _]; done). done.
Qed.

Lemma get_tail_set_children s p ch j :
  get_tail (set_children s p ch) j = get_tail s j.
Proof.
  unfold get_tail, set_children. rewrite list_lookup_alter.
  case_decide; subst; [| done]. by destruct (s !! j).
Qed.

Lemma length_set_children s p ch : length (set_children s p ch) = length s.
Proof. apply length_alter. Qed.

Lemma get_children_set_tail s n t j :
  get_children (set_tail s n t) j = get_children s j.
Proof.
  unfold get_children, set_tail. rewrite list_lookup_alter.
  case_decide; subst; [| done]. by destruct (s !! j).
Qed.

Lemma get_tail_set_tail s n t j :
  get_tail (set_tail s n t) j
  = if decide (j = n ∧ n < length s) then t else get_tail s j.
Proof.
  unfold get_tail, set_tail. rewrite list_lookup_alter.
  case_decide as Hpj; subst.
  - destruct (s !! j) eqn:Hj; simpl.
    + apply lookup_lt_Some in Hj. by rewrite decide_True.
    + apply lookup_ge_None in Hj. rewrite decide_False by lia. done.
  - rewrite decide_False by (intros [-> _]; done). done.
Qed.

Lemma length_set_tail s n t : length (set_tail s n t) = length s.
Proof. apply length_alter. Qed.

Lemma length_set_tails s ids t : length (set_tails s ids t) = length s.
Proof.
  unfold set_tails. destruct t as [t|]; [| done].
  revert s. induction ids as [|n ids IH]; intros s; simpl; [done |].
  by rewrite IH, length_set_tail.
Qed.

Lemma get_children_set_tails s ids t j :
  get_children (set_tails s ids t) j = get_children s j.
Proof.
  unfold set_tails. destruct t as [t|]; [| done].
  revert s. induction ids as [|n ids IH]; intros s; simpl; [done |].
  by rewrite IH, get_children_set_tail.
Qed.

Lemma foldl_set_tail_keep ids t s j :
  get_tail s j = Some t →
  get_tail (foldl (λ s n, set_tail s n (Some t)) s ids) j = Some t.
Proof.
  revert s. induction ids as [|n ids IH]; intros s Hs; simpl; [done |].
  apply IH. rewrite get_tail_set_tail. by case_decide.
Qed.

Lemma get_tail_set_tails s ids t j :
  j ∈ ids → j < length s → get_tail (set_tails s ids (Some t)) j = Some t.
Proof.
  unfold set_tails. revert s.
  induction ids as [|n ids IH]; intros s Hj Hlt; simpl.
  { by apply elem_of_nil in Hj. }
  destruct (decide (j = n)) as [->|Hne].
  - apply foldl_set_tail_keep. rewrite get_tail_set_tail. by rewrite decide_True.
  - apply IH; [| by rewrite length_set_tail].
    by apply elem_of_cons in Hj as [?|?].
Qed.

Lemma get_tail_set_tails_other s ids t j :
  j ∉ ids → get_tail (set_tails s ids t) j = get_tail s j.
Proof.
  unfold set_tails. destruct t as [t|]; [| done].
  revert s. induction ids as [|n ids IH]; intros s Hj; simpl; [done |].
  apply not_elem_of_cons in Hj as [Hne Hj].
  rewrite IH by done. rewrite get_tail_set_tail.
  rewrite decide_False; [done |]. by intros [-> _].
Qed.

Lemma get_children_insert_child s p idx n j :
  get_children (insert_child s p idx n) j
  = if decide (j = p ∧ p < length s)
    then take idx (get_children s p) ++ n :: drop idx (get_children s p)
    else get_children s j.
Proof. unfold insert_child. by rewrite get_children_set_children. Qed.

Lemma insert_children_fold s p idx clones :
  insert_children s p idx clones
  = match clones with
    | [] => s
    | n :: clones' => insert_children (insert_child s p idx n) p (S idx) clones'
    end.
Proof. by destruct clones. Qed.

Lemma length_insert_children s p idx clones :
  length (insert_children s p idx clones) = length s.
Proof.
  revert s idx. induction clones as [|n clones IH]; intros s idx; [done |].
  rewrite insert_children_fold, IH. apply length_set_children.
Qed.

Lemma get_tail_insert_children s p idx clones j :
  get_tail (insert_children s p idx clones) j = get_tail s j.
Proof.
  revert s idx. induction clones as [|n clones IH]; intros s idx; [done |].
  rewrite insert_children_fold, IH. apply get_tail_set_children.
Qed.

Lemma get_children_insert_children s p idx clones j :
  p < length s → idx ≤ length (get_children s p) →
  get_children (insert_children s p idx clones) j
  = if decide (j = p)
    then take idx (get_children s p) ++ clones ++ drop idx (get_children s p)
    else get_children s j.
Proof.
  revert s idx. induction clones as [|n clones IH]; intros s idx Hp Hidx.
  { simpl. case_decide; subst; [by rewrite take_drop | done]. }
  rewrite insert_children_fold.
  assert (get_children (insert_child s p idx n) p
          = take idx (get_children s p) ++ n :: drop idx (get_children s p))
    as Hch.
  { rewrite get_children_insert_child. by rewrite decide_True. }
  rewrite IH.
  - rewrite Hch. case_decide; subst.
    + rewrite (cons_middle n), (app_assoc (take idx _) [n]).
      rewrite take_app_length' by (rewrite length_app, length_take; simpl; lia).
      rewrite drop_app_length' by (rewrite length_app, length_take; simpl; lia).
      by rewrite <- app_assoc.
    + rewrite get_children_insert_child.
      rewrite decide_False by (intros [-> _]; done). done.
  - unfold insert_child. by rewrite length_set_children.
  - rewrite Hch, length_app, length_take. simpl. lia.
Qed.

(** *** Copies are fresh *)

Lemma deepcopy_unfold tg tx tl ln kids s :
  deepcopy (XNode tg tx tl ln kids) s
  = let '(s', ids) := deepcopy_all kids s in
    (s' ++ [{| tag := tg; text := tx; tail := tl;
               children := ids; sourceline := ln |}], length s').
Proof.
  simpl. 
  assert (∀ s, (fix copy_all (ks : list xnode) (s0 : store) {struct ks} :
                  store * list nat :=
                  match ks with
                  | [] => (s0, [])
                  | k :: ks' =>
                      let '(s1, i) := deepcopy k s0 in
                      let '(s2, ids) := copy_all ks' s1 in (s2, i :: ids)
                  end) kids s = deepcopy_all kids s) as ->; [| done].
  induction kids as [|k kids IH]; intros s0; simpl; [done |].
  destruct (deepcopy k s0) as [s1 i]. by rewrite IH.
Qed.

Lemma extends_fresh_trans s s1 s2 ids1 ids2 :
  extends_fresh s s1 ids1 → extends_fresh s1 s2 ids2 →
  extends_fresh s s2 (ids1 ++ ids2).
Proof.
  intros (a1 & -> & Hc1 & Hi1) (a2 & -> & Hc2 & Hi2).
  exists (a1 ++ a2). rewrite length_app in *. split_and!.
  - by rewrite app_assoc.
  - apply Forall_app. split; [done |].
    eapply Forall_impl; [exact Hc2 |]. intros e He.
    eapply Forall_impl; [exact He |]. simpl. intros c Hc. lia.
  - apply Forall_app. split.
    + eapply Forall_impl; [exact Hi1 |]. simpl. intros i. rewrite !length_app. lia.
    + eapply Forall_impl; [exact Hi2 |]. simpl. intros i. rewrite !length_app. lia.
Qed.

Lemma deepcopy_all_fresh_from nodes :
  Forall (λ n, ∀ s, extends_fresh s (deepcopy n s).1 [(deepcopy n s).2]) nodes →
  ∀ s, extends_fresh s (deepcopy_all nodes s).1 (deepcopy_all nodes s).2
       ∧ length (deepcopy_all nodes s).2 = length nodes.
Proof.
  induction 1 as [|n nodes Hn _ IH]; intros s; simpl.
  { split; [| done]. exists []. by rewrite app_nil_r. }
  specialize (Hn s). destruct (deepcopy n s) as [s1 i]. simpl in Hn.
  destruct (IH s1) as [Hrest Hlen].
  destruct (deepcopy_all nodes s1) as [s2 ids]. simpl in *.
  split; [| by rewrite Hlen].
  by apply (extends_fresh_trans s s1 s2 [i] ids).
Qed.

Lemma deepcopy_fresh n s : extends_fresh s (deepcopy n s).1 [(deepcopy n s).2].
Proof.
  revert s. induction n as [tg tx tl ln kids IH] using xnode_induction.
  intros s. rewrite deepcopy_unfold.
  destruct (deepcopy_all_fresh_from kids IH s) as [(added & Hs' & Hc & Hi) _].
  destruct (deepcopy_all kids s) as [s' ids]. simpl in *. subst s'.
  eexists (added ++ [_]). split_and!.
  - by rewrite app_assoc.
  - apply Forall_app. split; [done |]. apply Forall_singleton. simpl.
    eapply Forall_impl; [exact Hi |]. simpl. lia.
  - apply Forall_singleton. rewrite !length_app. simpl. lia.
Qed.

Lemma deepcopy_all_fresh nodes s :
  extends_fresh s (deepcopy_all nodes s).1 (deepcopy_all nodes s).2
  ∧ length (deepcopy_all nodes s).2 = length nodes.
Proof.
  apply deepcopy_all_fresh_from, Forall_forall. intros n _. apply deepcopy_fresh.
Qed.

Lemma getparent_Some s el p :
  getparent s el = Some p →
  p < length s ∧ el ∈ get_children s p.
Proof.
  unfold getparent. destruct (list_find _ s) as [[i e]|] eqn:Hfind; [| done].
  intros [= <-]. apply list_find_Some in Hfind as (Hi & Hel & _).
  split; [by eapply lookup_lt_Some |]. by rewrite (get_children_lookup _ _ _ Hi).
Qed.

Lemma getparent_None s el :
  getparent s el = None ↔ ∀ j, el ∉ get_children s j.
Proof.
  unfold getparent. destruct (list_find _ s) as [[i e]|] eqn:Hfind; simpl.
  - split; [done |]. intros Hno. exfalso.
    apply list_find_Some in Hfind as (Hi & Hel & _).
    apply (Hno i). by rewrite (get_children_lookup _ _ _ Hi).
  - split; [| done]. intros _ j Hj.
    apply list_find_None in Hfind. unfold get_children in Hj.
    destruct (s !! j) as [e|] eqn:He; simpl in Hj; [| by apply elem_of_nil in Hj].
    rewrite Forall_forall in Hfind. eapply Hfind; [| done].
    by eapply list_elem_of_lookup_2.
Qed.

Lemma getparent_app s added el p :
  getparent s el = Some p → getparent (s ++ added) el = Some p.
Proof.
  unfold getparent. destruct (list_find _ s) as [[i e]|] eqn:Hfind; [| done].
  intros [= <-]. by erewrite list_find_app_l.
Qed.

Lemma index_of_elem s p el :
  el ∈ get_children s p →
  ∃ i, index_of s p el = Ok i ∧ i < length (get_children s p).
Proof.
  intros Hel. unfold index_of.
  destruct (list_find _ _) as [[i c]|] eqn:Hfind.
  - exists i. split; [done |].
    apply list_find_Some in Hfind as (Hi & _). by eapply lookup_lt_Some.
  - apply list_find_None in Hfind. rewrite Forall_forall in Hfind.
    by specialize (Hfind el Hel).
Qed.

Lemma get_tail_app s added j : j < length s → get_tail (s ++ added) j = get_tail s j.
Proof. intros. unfold get_tail. by rewrite lookup_app_l. Qed.
Lemma get_text_app s added j : j < length s → get_text (s ++ added) j = get_text s j.
Proof. intros. unfold get_text. by rewrite lookup_app_l. Qed.
Lemma get_children_app s added j :
  j < length s → get_children (s ++ added) j = get_children s j.
Proof. intros. unfold get_children. by rewrite lookup_app_l. Qed.

Lemma sibling_indent_app s added el p :
  el < length s → getparent s el = Some p →
  sibling_indent (s ++ added) el = sibling_indent s el.
Proof.
  intros Hel Hp. unfold sibling_indent.
  rewrite (getparent_app _ added _ _ Hp), Hp, get_tail_app by done.
  apply getparent_Some in Hp as [Hlt _]. by rewrite get_text_app.
Qed.

(** C9. A sibling insertion without an indent override: the copies of the
    fragment nodes become children of the target's parent, next to the
    target, and each copy's trailing text is the text the rule of the
    specification selects. *)
Theorem C9_inserted_siblings_get_inferred_tail s el p nodes position indent changed :
  position = py "before" ∨ position = py "after" →
  truthy indent = false →
  el < length s →
  getparent s el = Some p →
  ∃ s' i clones,
    index_of s p el = Ok i
    ∧ insert_step nodes position indent (s, changed) el
      = Ok (s', changed + length nodes)
    ∧ apply_insert [el] nodes position indent s = Ok (s', length nodes)
    ∧ length clones = length nodes
    ∧ (let idx := if bool_decide (position = py "after") then S i else i in
       get_children s' p
       = take idx (get_children s p) ++ clones ++ drop idx (get_children s p))
    ∧ Forall (λ c, length s ≤ c
                   ∧ get_tail s' c = Some (spec_sibling_tail s el)) clones.
Proof.
  intros Hpos Hindent Hel Hp.
  destruct (getparent_Some _ _ _ Hp) as [Hplt Hin].
  destruct (index_of_elem _ _ _ Hin) as (i & Hi & Hilt).
  destruct (deepcopy_all_fresh nodes s) as [(added & Hs1 & _ & Hfresh) Hlen].
  destruct (deepcopy_all nodes s) as [s1 clones] eqn:Hcopy. simpl in *.
  set (idx := if bool_decide (position = py "after") then S i else i).
  set (tl := spec_sibling_tail s el).
  set (s2 := set_tails s1 clones (Some tl)).
  exists (insert_children s2 p idx clones), i, clones.
  assert (∀ changed, insert_step nodes position indent (s, changed) el
          = Ok (insert_children s2 p idx clones, changed + length nodes))
    as Hstep.
  { intros n. unfold insert_step. rewrite bool_decide_eq_true_2 by done.
    rewrite Hp, Hi. simpl. rewrite Hcopy.
    unfold or_else at 1. rewrite Hindent.
    rewrite Hs1, (sibling_indent_app _ _ _ _ Hel Hp), sibling_indent_spec.
    rewrite <- Hs1, Hlen. reflexivity. }
  split_and!; [done | apply Hstep | | done | |].
  - unfold apply_insert. cbn [for_each]. by rewrite Hstep.
  - cbv zeta. fold idx.
    rewrite get_children_insert_children.
    + rewrite decide_True by done. unfold s2.
      by rewrite get_children_set_tails, Hs1, get_children_app.
    + unfold s2. rewrite length_set_tails, Hs1, length_app. lia.
    + unfold s2. rewrite get_children_set_tails, Hs1, get_children_app by done.
      unfold idx. case_bool_decide; lia.
  - apply Forall_forall. intros c Hc.
    rewrite Forall_forall in Hfresh. specialize (Hfresh c Hc).
    split; [lia |].
    rewrite get_tail_insert_children. by apply get_tail_set_tails; [| lia].
Qed.

Lemma C9_inserted_siblings_get_inferred_tail_witness :
  ∃ s' i clones,
    index_of indented_store 0 1 = Ok i
    ∧ insert_step [XNode (py "n") None None None []] (py "after") None
        (indented_store, 0) 1
      = Ok (s', 0 + 1)
    ∧ apply_insert [1] [XNode (py "n") None None None []] (py "after") None
        indented_store
      = Ok (s', 1)
    ∧ length clones = 1
    ∧ get_children s' 0
      = take (S i) (get_children indented_store 0) ++ clones ++
        drop (S i) (get_children indented_store 0)
    ∧ Forall (λ c, length indented_store ≤ c
                   ∧ get_tail s' c = Some (spec_sibling_tail indented_store 1))
             clones.
Proof.
  apply (C9_inserted_siblings_get_inferred_tail indented_store 1 0
           [XNode (py "n") None None None []] (py "after") None 0).
  - right. reflexivity.
  - reflexivity.
  - vm_compute. lia.
  - vm_compute. reflexivity.
Defined.

(** The new sibling of [a] takes over the two-space indentation of [a]. *)
Example insert_after_copies_indentation :
  spec_sibling_tail indented_store 1 = [c_nl] ++ py "  "
  ∧ ∃ s', apply_insert [1] [XNode (py "n") None None None []] (py "after")
            None indented_store = Ok (s', 1)
          ∧ get_children s' 0 = [1; 3; 2]
          ∧ get_tail s' 3 = Some ([c_nl] ++ py "  ").
Proof. split; [reflexivity |]. eexists. vm_compute. split_and!; reflexivity. Qed.

(** *** The root guard *)

Lemma bind_Ok {A B} (a : A) (f : A → result B) : (Ok a ≫= f) = f a.
Proof. reflexivity. Qed.

Lemma is_root_grows s s' r : grows s s' → is_root s r → is_root s' r.
Proof.
  intros [Hlen Hch] [Hr Hnone]. split; [lia |].
  apply getparent_None. intros j Hj.
  destruct (Hch j r Hj) as [Hold | ?]; [| lia].
  by eapply getparent_None in Hold.
Qed.

Lemma remove_child_ok s p el :
  el ∈ get_children s p →
  ∃ s', remove_child s p el = Ok s' ∧ length s' = length s
    ∧ ∀ j c, c ∈ get_children s' j → c ∈ get_children s j.
Proof.
  intros Hel. destruct (index_of_elem _ _ _ Hel) as (i & Hi & _).
  unfold remove_child. rewrite Hi. simpl. eexists. split_and!; [done | |].
  - apply length_set_children.
  - intros j c. rewrite get_children_set_children.
    case_decide as Hj; [| done]. destruct Hj as [-> _].
    apply list_elem_of_delete_inv.
Qed.

Lemma delete_step_root s n el :
  getparent s el = None → delete_step (s, n) el = fail "cannot delete root element".
Proof. unfold delete_step. by intros ->. Qed.

Lemma delete_step_ok s n el p :
  getparent s el = Some p →
  ∃ s' n', delete_step (s, n) el = Ok (s', n') ∧ grows s s'.
Proof.
  intros Hp. destruct (getparent_Some _ _ _ Hp) as [_ Hel].
  destruct (remove_child_ok _ _ _ Hel) as (s' & Hrm & Hlen & Hch).
  exists s', (n + 1). unfold delete_step. rewrite Hp, Hrm. simpl.
  split; [done |]. split; [lia |]. intros j c Hc. left. by apply Hch.
Qed.

Lemma replace_step_root nodes indent s n el :
  getparent s el = None →
  replace_step nodes indent (s, n) el = fail "cannot replace root element".
Proof. unfold replace_step. by intros ->. Qed.

Lemma replace_step_ok nodes indent s n el p :
  getparent s el = Some p →
  ∃ s' n', replace_step nodes indent (s, n) el = Ok (s', n') ∧ grows s s'.
Proof.
  intros Hp. destruct (getparent_Some _ _ _ Hp) as [Hplt Hel].
  destruct (index_of_elem _ _ _ Hel) as (i & Hi & Hilt).
  destruct (deepcopy_all_fresh nodes s) as [(added & Hs1 & Hadded & Hfresh) _].
  unfold replace_step. rewrite Hp, Hi, bind_Ok.
  destruct (deepcopy_all nodes s) as [s1 clones]. simpl in Hs1, Hfresh.
  set (s2 := set_tails s1 clones _).
  set (s3 := insert_children s2 p i clones).
  assert (get_children s2 p = get_children s p) as Hch2.
  { unfold s2. by rewrite get_children_set_tails, Hs1, get_children_app. }
  assert (length s2 = length s1) as Hlen2 by apply length_set_tails.
  assert (∀ j, get_children s3 j
               = if decide (j = p)
                 then take i (get_children s p) ++ clones ++
                      drop i (get_children s p)
                 else get_children s1 j) as Hch3.
  { intros j. unfold s3. rewrite get_children_insert_children.
    - rewrite Hch2. case_decide; [done |]. unfold s2.
      by rewrite get_children_set_tails.
    - rewrite Hlen2, Hs1, length_app. lia.
    - rewrite Hch2. lia. }
  assert (el ∈ get_children s3 p) as Hel3.
  { rewrite Hch3, decide_True by done.
    rewrite <- (take_drop i (get_children s p)) in Hel.
    rewrite !elem_of_app in *. tauto. }
  destruct (remove_child_ok _ _ _ Hel3) as (s4 & Hrm & Hlen4 & Hch4).
  rewrite Hrm, bind_Ok. exists s4, (n + 1). split; [done |]. split.
  - rewrite Hlen4. unfold s3. rewrite length_insert_children, Hlen2, Hs1, length_app. lia.
  - intros j c Hc%Hch4. rewrite Hch3 in Hc. case_decide as Hj.
    + subst j. rewrite !elem_of_app in Hc. destruct Hc as [Hc | [Hc | Hc]].
      * left. eapply elem_of_sublist; [done | apply sublist_take].
      * right. rewrite Forall_forall in Hfresh. specialize (Hfresh c Hc). lia.
      * left. eapply elem_of_sublist; [done | apply sublist_drop].
    + destruct (decide (j < length s)) as [Hlt | Hge].
      * left. by rewrite Hs1, get_children_app in Hc.
      * right. rewrite Hs1 in Hc. unfold get_children in Hc.
        rewrite lookup_app_r in Hc by lia.
        destruct (added !! (j - length s)) as [e|] eqn:He; simpl in Hc;
          [| by apply elem_of_nil in Hc].
        rewrite Forall_forall in Hadded.
        specialize (Hadded e (list_elem_of_lookup_2 _ _ _ He)).
        rewrite Forall_forall in Hadded. by apply Hadded.
Qed.

(** A loop whose body refuses a parentless element and otherwise only lets
    the tree grow fails on any list that holds the root. *)
Lemma root_guard_loop (step : store * nat → nat → result (store * nat)) msg :
  (∀ s n el, getparent s el = None → step (s, n) el = fail msg) →
  (∀ s n el p, getparent s el = Some p →
     ∃ s' n', step (s, n) el = Ok (s', n') ∧ grows s s') →
  ∀ elements s n r,
    r ∈ elements → is_root s r → for_each step (s, n) elements = fail msg.
Proof.
  intros Hroot Hok elements.
  induction elements as [|el elements IH]; intros s n r Hr Hs.
  { by apply elem_of_nil in Hr. }
  simpl. destruct (getparent s el) as [p|] eqn:Hp.
  - destruct (Hok s n el p Hp) as (s' & n' & -> & Hgrow). simpl.
    apply (IH s' n' r); [| by eapply is_root_grows].
    apply elem_of_cons in Hr as [-> | Hr]; [| done].
    destruct Hs as [_ Hs]. congruence.
  - by rewrite Hroot.
Qed.

Lemma apply_delete_root elements s r :
  r ∈ elements → is_root s r →
  apply_delete elements s = fail "cannot delete root element".
Proof.
  apply root_guard_loop; [apply delete_step_root | apply delete_step_ok].
Qed.

Lemma apply_replace_root nodes indent elements s r :
  r ∈ elements → is_root s r →
  apply_replace elements nodes indent s = fail "cannot replace root element".
Proof.
  apply root_guard_loop; [apply replace_step_root | apply replace_step_ok].
Qed.

(** *** The span of a tag *)

Lemma startswith_head c p s :
  startswith (c :: p) s = true → s !! 0 = Some c.
Proof.
  destruct s as [|b s]; simpl; [done |].
  intros [->%N.eqb_eq _]%andb_true_iff. done.
Qed.

Lemma find_in_startswith needle s i :
  find_in needle s = Some i → startswith needle (drop i s) = true.
Proof.
  revert i. induction s as [|c s IH]; intros i; simpl.
  - destruct (startswith needle []) eqn:Hs; [by intros [= <-] | done].
  - destruct (startswith needle (c :: s)) eqn:Hs; [by intros [= <-] |].
    destruct (find_in needle s) as [j|]; simpl; [| done].
    intros [= <-]. by apply IH.
Qed.

Lemma find_startswith needle text start i :
  find needle text start = Some i →
  start ≤ i ∧ startswith needle (drop i text) = true.
Proof.
  unfold find. case_decide; [| done].
  destruct (find_in needle (drop start text)) as [j|] eqn:Hj; simpl; [| done].
  intros [= <-]. split; [lia |].
  apply find_in_startswith in Hj. by rewrite drop_drop in Hj.
Qed.

Lemma scan_tag_stops_at_gt q i rest j :
  scan_tag q i rest = Some j → rest !! (j - i) = Some c_gt.
Proof.
  revert q i. induction rest as [|ch rest IH]; intros q i; simpl; [done |].
  assert (∀ q', scan_tag q' (S i) rest = Some j →
                (ch :: rest) !! (j - i) = Some c_gt) as Hnext.
  { intros q' Hq'. pose proof (scan_tag_bounds _ _ _ _ Hq') as Hb.
    apply IH in Hq'. by replace (j - i) with (S (j - S i)) by lia. }
  destruct ((ch =? c_dquote)%N || (ch =? c_squote)%N).
  { destruct q as [q|]; [destruct (q =? ch)%N |]; apply Hnext. }
  destruct ((ch =? c_gt)%N && _) eqn:Hgt; [| apply Hnext].
  intros [= <-]. apply andb_true_iff in Hgt as [->%N.eqb_eq _].
  by rewrite Nat.sub_diag.
Qed.

(** The span [find_start_tag_span] returns starts at or after the line
    start, lies inside the text, begins with [<] and ends with [>]. *)
Theorem located_span_is_bracketed text line_start tg start end_ :
  find_start_tag_span text line_start tg = Some (start, end_) →
  line_start ≤ start ∧ start < end_ < length text
  ∧ text !! start = Some c_lt ∧ text !! end_ = Some c_gt.
Proof.
  intros Hspan. pose proof (find_start_tag_span_bounds _ _ _ _ _ Hspan) as Hb.
  unfold find_start_tag_span in Hspan.
  destruct (match find _ _ _ with Some _ => _ | None => _ end) as [st|] eqn:Hst;
    simpl in Hspan; [| done].
  destruct (scan_tag None st (drop st text)) as [i|] eqn:Hscan;
    simpl in Hspan; [| done].
  injection Hspan as -> ->.
  assert (line_start ≤ start ∧ text !! start = Some c_lt) as [Hls Hlt].
  { destruct (find (c_lt :: tg) text line_start) as [s1|] eqn:H1.
    - injection Hst as ->. apply find_startswith in H1 as [? H1].
      apply startswith_head in H1. rewrite lookup_drop, Nat.add_0_r in H1. done.
    - apply find_startswith in Hst as [? H2].
      apply startswith_head in H2. rewrite lookup_drop, Nat.add_0_r in H2. done. }
  pose proof (scan_tag_bounds _ _ _ _ Hscan) as Hsb.
  apply scan_tag_stops_at_gt in Hscan. rewrite lookup_drop in Hscan.
  replace (start + (end_ - start)) with end_ in Hscan by lia.
  split_and!; [done | | lia | done | done].
  destruct (decide (start = end_)) as [->|]; [| lia].
  rewrite Hlt in Hscan. done.
Qed.

Lemma located_span_is_bracketed_witness :
  0 ≤ 3 ∧ 3 < 12 < length (py "<r><a k='1'/><b k='1'/></r>")
  ∧ py "<r><a k='1'/><b k='1'/></r>" !! 3 = Some c_lt
  ∧ py "<r><a k='1'/><b k='1'/></r>" !! 12 = Some c_gt.
Proof.
  apply (located_span_is_bracketed (py "<r><a k='1'/><b k='1'/></r>") 0 (py "a")).
  vm_compute. reflexivity.
Defined.

(** *** What a match tells about the text *)

Lemma startswith_app p s : startswith p s = true ↔ ∃ rest, s = p ++ rest.
Proof.
  revert s. induction p as [|a p IH]; intros s; simpl.
  { split; [by exists s | done]. }
  destruct s as [|b s]; [split; [done | by intros [? ?]] |].
  rewrite andb_true_iff, N.eqb_eq, IH. split.
  - intros [-> [rest ->]]. by exists rest.
  - intros [rest [= -> ->]]. eauto.
Qed.

Lemma rep_greedy_sound p k min pos rest c r :
  rep_greedy p k min pos rest c = Some r →
  ∃ w rest', rest = w ++ rest' ∧ Forall (λ x, p x = true) w
    ∧ min ≤ length w ∧ k (pos + length w) rest' c = Some r.
Proof.
  revert min pos. induction rest as [|x rest IH]; intros min pos; simpl.
  - destruct min; [| done]. intros Hk. exists [], []. simpl.
    rewrite Nat.add_0_r. by repeat split.
  - assert ((if min is 0 then k pos (x :: rest) c else None) = Some r →
            ∃ w rest', x :: rest = w ++ rest' ∧ Forall (λ x, p x = true) w
              ∧ min ≤ length w ∧ k (pos + length w) rest' c = Some r) as Hstop.
    { destruct min; [| done]. intros Hk. exists [], (x :: rest). simpl.
      rewrite Nat.add_0_r. by repeat split. }
    destruct (p x) eqn:Hx; [| done].
    destruct (rep_greedy p k (pred min) (S pos) rest c) as [r'|] eqn:Hrec;
      [| done].
    intros [= ->]. apply IH in Hrec as (w & rest' & -> & Hw & Hmin & Hk).
    exists (x :: w), rest'. simpl. split_and!; [done | by constructor | lia |].
    by replace (pos + S (length w)) with (S pos + length w) by lia.
Qed.

Lemma rep_lazy_sound p k min pos rest c r :
  rep_lazy p k min pos rest c = Some r →
  ∃ w rest', rest = w ++ rest' ∧ Forall (λ x, p x = true) w
    ∧ min ≤ length w ∧ k (pos + length w) rest' c = Some r.
Proof.
  revert min pos. induction rest as [|x rest IH]; intros min pos; simpl.
  - destruct min; [| done]. destruct (k pos [] c) eqn:Hk; [| done].
    intros [= ->]. exists [], []. simpl. rewrite Nat.add_0_r. by repeat split.
  - assert ((if p x then rep_lazy p k (pred min) (S pos) rest c else None)
            = Some r →
            ∃ w rest', x :: rest = w ++ rest' ∧ Forall (λ x, p x = true) w
              ∧ min ≤ length w ∧ k (pos + length w) rest' c = Some r) as Hmore.
    { destruct (p x) eqn:Hx; [| done].
      intros (w & rest' & -> & Hw & Hmin & Hk)%IH.
      exists (x :: w), rest'. simpl. split_and!; [done | by constructor | lia |].
      by replace (pos + S (length w)) with (S pos + length w) by lia. }
    destruct min; [| done].
    destruct (k pos (x :: rest) c) eqn:Hk; [| done].
    intros [= ->]. exists [], (x :: rest). simpl. rewrite Nat.add_0_r.
    by repeat split.
Qed.

Lemma run_lit s r subj k pos rest c x :
  run (ALit s :: r) subj k pos rest c = Some x →
  ∃ rest', rest = s ++ rest' ∧ run r subj k (pos + length s) rest' c = Some x.
Proof.
  simpl. destruct (startswith s rest) eqn:Hs; [| done].
  apply startswith_app in Hs as [rest' ->]. rewrite drop_app_length. eauto.
Qed.

Lemma run_set p r subj k pos rest c x :
  run (ASet p :: r) subj k pos rest c = Some x →
  ∃ a rest', rest = a :: rest' ∧ p a = true
    ∧ run r subj k (S pos) rest' c = Some x.
Proof.
  simpl. destruct rest as [|a rest']; [done |].
  destruct (p a) eqn:Ha; [| done]. eauto.
Qed.

Lemma run_rep p min greedy r subj k pos rest c x :
  run (ARep p min greedy :: r) subj k pos rest c = Some x →
  ∃ w rest', rest = w ++ rest' ∧ Forall (λ a, p a = true) w
    ∧ min ≤ length w ∧ run r subj k (pos + length w) rest' c = Some x.
Proof.
  simpl. destruct greedy; [apply rep_greedy_sound | apply rep_lazy_sound].
Qed.

Lemma run_backref g r subj k pos rest c x :
  run (ABackref g :: r) subj k pos rest c = Some x →
  ∃ s rest', group_text subj c g = Some s ∧ rest = s ++ rest'
    ∧ run r subj k (pos + length s) rest' c = Some x.
Proof.
  simpl. destruct (group_text subj c g) as [s|]; [| done].
  destruct (startswith s rest) eqn:Hs; [| done].
  apply startswith_app in Hs as [rest' ->]. rewrite drop_app_length. eauto.
Qed.


Lemma assoc_here {A} g (a : A) l : assoc g ((g, a) :: l) = Some a.
Proof. unfold assoc. simpl. by rewrite decide_True. Qed.

Lemma assoc_next {A} g g' (a : A) l :
  g ≠ g' → assoc g ((g', a) :: l) = assoc g l.
Proof.
  intros Hne. unfold assoc. simpl. rewrite decide_False by done.
  destruct (list_find _ l) as [[i [g0 a0]]|]; done.
Qed.

Lemma group_at (subj a b c : str) s e :
  subj = a ++ b ++ c → s = length a → e = length a + length b →
  take (e - s) (drop s subj) = b.
Proof.
  intros -> -> ->. rewrite drop_app_length.
  replace (length a + length b - length a) with (length b) by lia.
  by rewrite take_app_length.
Qed.


(** *** Escaping *)

Lemma replace1_flat_map c by_ (f : N → str) data :
  replace1 c by_ (flat_map f data) = flat_map (λ x, replace1 c by_ (f x)) data.
Proof.
  unfold replace1. induction data as [|x data IH]; simpl; [done |].
  by rewrite flat_map_app, IH.
Qed.

(** The replacements of [xml_escape] run one after the other over the whole
    value; for a quote character [q] they amount to escaping each character
    on its own. *)
Lemma escape_attr_charwise q value :
  is_quote q = true →
  escape_attr value [q] = flat_map (escape_char q) value.
Proof.
  intros Hq. unfold escape_attr, xml_escape.
  assert (replace1 c_lt (py "&lt;")
            (replace1 c_gt (py "&gt;") (replace1 c_amp (py "&amp;") value))
          = flat_map (λ c, if (c =? c_amp)%N then py "&amp;"
                            else if (c =? c_gt)%N then py "&gt;"
                            else if (c =? c_lt)%N then py "&lt;"
                            else [c]) value) as Hthree.
  { unfold replace1 at 3.
    rewrite !replace1_flat_map. apply flat_map_ext. intros c.
    destruct (c =? c_amp)%N eqn:Ha; [reflexivity |]. simpl.
    destruct (c =? c_gt)%N eqn:Hg; [reflexivity |]. simpl.
    destruct (c =? c_lt)%N eqn:Hl; reflexivity. }
  unfold is_quote in Hq. apply orb_true_iff in Hq as [Hd%N.eqb_eq | Hs%N.eqb_eq];
    subst q.
  - rewrite bool_decide_eq_true_2 by done. rewrite Hthree, replace1_flat_map.
    apply flat_map_ext. intros c. unfold escape_char.
    destruct (c =? c_amp)%N eqn:Ha; [reflexivity |].
    destruct (c =? c_gt)%N eqn:Hg; [reflexivity |].
    destruct (c =? c_lt)%N eqn:Hl; [reflexivity |].
    simpl. destruct (c =? c_dquote)%N; by rewrite ?app_nil_r.
  - rewrite bool_decide_eq_false_2 by done. rewrite Hthree, replace1_flat_map.
    apply flat_map_ext. intros c. unfold escape_char.
    destruct (c =? c_amp)%N eqn:Ha; [reflexivity |].
    destruct (c =? c_gt)%N eqn:Hg; [reflexivity |].
    destruct (c =? c_lt)%N eqn:Hl; [reflexivity |].
    simpl. destruct (c =? c_squote)%N; by rewrite ?app_nil_r.
Qed.

(** *** Replacing an existing attribute *)

Lemma parse_template_plain repl fuel ngroups :
  c_bslash ∉ repl → length repl < fuel →
  parse_template fuel ngroups repl = Ok (PLit <$> repl).
Proof.
  revert fuel. induction repl as [|c repl IH]; intros fuel Hno Hlen.
  { destruct fuel; [simpl in Hlen; lia | done]. }
  destruct fuel as [|fuel]; [simpl in Hlen; lia |].
  apply not_elem_of_cons in Hno as [Hc Hno]. simpl.
  rewrite (proj2 (N.eqb_neq c c_bslash)) by done. simpl.
  rewrite IH by (simpl in Hlen; done || lia). done.
Qed.

Lemma expand_plain subj m repl : expand subj m (PLit <$> repl) = repl.
Proof.
  unfold expand. induction repl as [|c repl IH]; [done |].
  rewrite fmap_cons. simpl. by f_equal.
Qed.

(** One substitution with a template that holds no backslash. *)
Lemma re_sub_first_plain r ngroups repl subj m :
  c_bslash ∉ repl →
  re_search r subj = Some m →
  re_sub r ngroups repl subj 1
  = Ok (take (m_start m) subj ++ repl ++ drop (m_end m) subj).
Proof.
  intros Hno Hm. unfold re_sub. rewrite parse_template_plain by (done || lia).
  cbn [mbind result_bind].
  replace (2 * length subj + 2) with (S (2 * length subj + 1)) by lia.
  cbn [sub_loop]. unfold re_search in Hm. rewrite Hm.
  rewrite expand_plain, Nat.sub_0_r. by rewrite decide_True.
Qed.

Ltac not_in_literal :=
  repeat (apply not_elem_of_cons; split; [done |]); apply not_elem_of_nil.





(** *** The header declaration *)

(** A declaration is detected only in data that starts, after white space,
    with [<?xml], white space, and text without [>] up to [?>]. *)
Lemma detected_declaration_shape data :
  (detect_decl_and_encoding data).1 = true →
  ∃ ws ws' body rest,
    data = ws ++ py "<?xml" ++ ws' ++ body ++ py "?>" ++ rest
    ∧ Forall (λ a, isspace_ascii a = true) ws
    ∧ Forall (λ a, isspace_ascii a = true) ws' ∧ ws' ≠ []
    ∧ Forall (λ a, a ≠ c_gt) body.
Proof.
  unfold detect_decl_and_encoding. cbn [fst].
  intros [m Hm]%bool_decide_eq_true_1.
  unfold re_match, match_at in Hm.
  destruct (run _ _ _ _ _ _) as [[e c]|] eqn:Hrun; [| done]. clear Hm.
  unfold decl_pattern in Hrun. cbn [run] in Hrun.
  apply rep_greedy_sound in Hrun as (ws & rest1 & -> & Hws & _ & Hrun).
  destruct (startswith (py "<?xml") rest1) eqn:Hxml; [| done].
  apply startswith_app in Hxml as [rest2 ->]. rewrite drop_app_length in Hrun.
  apply rep_greedy_sound in Hrun as (ws' & rest3 & -> & Hws' & Hmin & Hrun).
  apply rep_greedy_sound in Hrun as (body & rest4 & -> & Hbody & _ & Hrun).
  destruct (startswith (py "?>") rest4) eqn:Hend; [| done].
  apply startswith_app in Hend as [rest ->].
  exists ws, ws', body, rest. split_and!; [done.. | |].
  - destruct ws'; [simpl in Hmin; lia | done].
  - eapply Forall_impl; [exact Hbody |]. intros a Ha ->. done.
Qed.

Lemma detected_declaration_shape_witness :
  ∃ ws ws' body rest,
    latin1_source = ws ++ py "<?xml" ++ ws' ++ body ++ py "?>" ++ rest
    ∧ Forall (λ a, isspace_ascii a = true) ws
    ∧ Forall (λ a, isspace_ascii a = true) ws' ∧ ws' ≠ []
    ∧ Forall (λ a, a ≠ c_gt) body.
Proof.
  apply (detected_declaration_shape latin1_source). vm_compute. reflexivity.
Defined.


(** *** The structural commands *)

Section commands.

Variable etree_parse : str → bool → bool → option document.
Variable tree_xpath : document → str → gmap str str → option (list item).
Variable write_nodes : document → str → str.
Variable sorted_glob : gmap string str → string → list string.
Variable unified_diff : string → str → str → string.

Abbreviation mutate_file' := (mutate_file etree_parse tree_xpath write_nodes unified_diff).
Abbreviation mutate_files' :=
  (mutate_files etree_parse tree_xpath write_nodes sorted_glob unified_diff).

(** A mutator that raises leaves the files and the output alone. *)
Lemma mutate_file_mutator_raises (a : args) ns_map (m : mutator) path w
    data tree items elements e :
  files w !! path = Some data →
  etree_parse data (huge a) (recover a) = Some tree →
  tree_xpath tree (xpath a) ns_map = Some items →
  ensure_elements (Main.limit items (limit_ a)) = Ok elements →
  m elements (doc_store tree) = Raise e →
  mutate_file' a ns_map m path w = (Raise e, w).
Proof.
  intros Hfile Hparse Hxpath Hels Hm.
  unfold mutate_file, parse_doc, read_bytes, select, lift, mbind, io_bind.
  rewrite Hfile. destruct (detect_decl_and_encoding data) as [has_decl enc].
  rewrite Hparse. simpl. rewrite Hxpath, Hels, Hm. reflexivity.
Qed.

(** One file that fails to parse. *)
Lemma mutate_file_parse_error (a : args) ns_map (m : mutator) path w data :
  files w !! path = Some data →
  etree_parse data (huge a) (recover a) = None →
  mutate_file' a ns_map m path w
  = (Raise (SystemExit 2 (py ("XML parse failed for " +:+ path))), w).
Proof.
  intros Hfile Hparse.
  unfold mutate_file, parse_doc, read_bytes, lift, mbind, io_bind.
  rewrite Hfile. destruct (detect_decl_and_encoding data) as [has_decl enc].
  by rewrite Hparse.
Qed.

Lemma for_each_io_app {A} (body : A → io ()) l1 l2 w :
  for_each_io body (l1 ++ l2) w
  = match for_each_io body l1 w with
    | (Ok _, w1) => for_each_io body l2 w1
    | (Raise e, w1) => (Raise e, w1)
    end.
Proof.
  revert w. induction l1 as [|x l1 IH]; intros w; simpl; [done |].
  unfold mbind, io_bind. destruct (body x w) as [[[]|e] w1]; [apply IH | done].
Qed.

Lemma for_each_io_raise {A} (body : A → io ()) x l w e w' :
  body x w = (Raise e, w') → for_each_io body (x :: l) w = (Raise e, w').
Proof. intros H. simpl. unfold mbind, io_bind. by rewrite H. Qed.

Lemma mutate_files_single (a : args) (m : mutator) path ns_map w :
  paths a = [path] → has_glob_char path = false →
  parse_ns (ns a) = Ok ns_map →
  mutate_files' a m w
  = match mutate_file' a ns_map m path w with
    | (Ok _, w') => (Ok 0%Z, w')
    | (Raise e, w') => (Raise e, w')
    end.
Proof.
  intros Hpaths Hglob Hns.
  unfold mutate_files, expand_paths, lift, mbind, io_bind.
  rewrite Hns, Hpaths. simpl. rewrite Hglob. simpl.
  rewrite decide_False by set_solver. simpl.
  unfold mbind, io_bind.
  destruct (mutate_file _ _ _ _ _ _ _ _ w) as [[[]|e] w']; done.
Qed.

(** A delete command for one file whose matches include the root. *)
Lemma cmd_delete_root_fails (a : args) ns_map path w
    data tree items elements r :
  paths a = [path] → has_glob_char path = false →
  parse_ns (ns a) = Ok ns_map →
  files w !! path = Some data →
  etree_parse data (huge a) (recover a) = Some tree →
  tree_xpath tree (xpath a) ns_map = Some items →
  ensure_elements (Main.limit items (limit_ a)) = Ok elements →
  r ∈ elements →
  is_root (doc_store tree) r →
  cmd_delete etree_parse tree_xpath write_nodes sorted_glob unified_diff a w
  = (fail "cannot delete root element", w).
Proof.
  intros Hpaths Hglob Hns Hfile Hparse Hxpath Hels Hr Hroot.
  unfold cmd_delete. rewrite (mutate_files_single _ _ _ _ _ Hpaths Hglob Hns).
  erewrite mutate_file_mutator_raises; [done | done.. |].
  by eapply apply_delete_root.
Qed.

(** C4. A delete or replace whose matches include the root: the mutator
    raises the root error, whatever else was matched, and the file step
    ends there, with the files and the output as they were. *)
Theorem C4_root_is_not_deleted_or_replaced (a : args) ns_map path w
    data tree items elements r nodes indent :
  files w !! path = Some data →
  etree_parse data (huge a) (recover a) = Some tree →
  tree_xpath tree (xpath a) ns_map = Some items →
  ensure_elements (Main.limit items (limit_ a)) = Ok elements →
  r ∈ elements →
  is_root (doc_store tree) r →
  mutate_file' a ns_map apply_delete path w
  = (fail "cannot delete root element", w)
  ∧ mutate_file' a ns_map (λ els, apply_replace els nodes indent) path w
    = (fail "cannot replace root element", w).
Proof.
  intros Hfile Hparse Hxpath Hels Hr Hroot. split.
  - eapply mutate_file_mutator_raises; [done.. |].
    by eapply apply_delete_root.
  - eapply mutate_file_mutator_raises; [done.. |].
    by eapply apply_replace_root.
Qed.

(** The loop over the files stops at the first file that fails to parse. *)
Lemma parse_error_ends_loop (a : args) ns_map (m : mutator)
    before path after w w1 data :
  for_each_io (mutate_file' a ns_map m) before w = (Ok (), w1) →
  files w1 !! path = Some data →
  etree_parse data (huge a) (recover a) = None →
  for_each_io (mutate_file' a ns_map m) (before ++ path :: after) w
  = (Raise (SystemExit 2 (py ("XML parse failed for " +:+ path))), w1).
Proof.
  intros Hbefore Hfile Hparse. rewrite for_each_io_app, Hbefore.
  apply for_each_io_raise. by eapply mutate_file_parse_error.
Qed.

(** C7, as the code has it. A file that fails to parse ends the whole run
    of [mutate_files]: the files before it have been processed ([w1] is the
    world they leave), the file itself and every file after it are not, and
    nothing is written or reported for them. *)
Theorem C7_parse_error_ends_the_batch (a : args) ns_map (m : mutator)
    before path after w w1 data :
  parse_ns (ns a) = Ok ns_map →
  expand_paths sorted_glob (paths a) w = (Ok (before ++ path :: after), w) →
  for_each_io (mutate_file' a ns_map m) before w = (Ok (), w1) →
  files w1 !! path = Some data →
  etree_parse data (huge a) (recover a) = None →
  mutate_files' a m w
  = (Raise (SystemExit 2 (py ("XML parse failed for " +:+ path))), w1).
Proof.
  intros Hns Hpaths Hbefore Hfile Hparse.
  unfold mutate_files, lift, mbind, io_bind. rewrite Hns, Hpaths.
  rewrite bool_decide_eq_false_2 by (by destruct before).
  cbn [mret io_ret].
  by rewrite (parse_error_ends_loop _ _ _ _ _ _ _ _ _ Hbefore Hfile Hparse).
Qed.


End commands.

(** The root guard at work on the sample files. *)
Lemma C4_root_is_not_deleted_or_replaced_witness :
  let a := sample_args ["a.xml"] "/r" in
  mutate_file sample_parse sample_xpath sample_write sample_diff
    a ∅ apply_delete "a.xml" sample_world
  = (fail "cannot delete root element", sample_world)
  ∧ mutate_file sample_parse sample_xpath sample_write sample_diff
      a ∅ (λ els, apply_replace els [XNode (py "n") None None None []] None)
      "a.xml" sample_world
    = (fail "cannot replace root element", sample_world).
Proof.
  intros a.
  apply (C4_root_is_not_deleted_or_replaced
           sample_parse sample_xpath sample_write sample_diff
           a ∅ "a.xml" sample_world sample_bytes sample_doc [Element 0] [0] 0);
    try (vm_compute; reflexivity).
  - apply list_elem_of_singleton. reflexivity.
  - split; [vm_compute; lia | vm_compute; reflexivity].
Defined.

(** The whole command on the sample file. *)
Example cmd_delete_on_the_root :
  cmd_delete sample_parse sample_xpath sample_write sample_glob sample_diff
    (sample_args ["a.xml"] "/r") sample_world
  = (fail "cannot delete root element", sample_world).
Proof.
  apply (cmd_delete_root_fails sample_parse sample_xpath sample_write
           sample_glob sample_diff _ ∅ "a.xml" _
           sample_bytes sample_doc [Element 0] [0] 0);
    try (vm_compute; reflexivity).
  - apply list_elem_of_singleton. reflexivity.
  - split; [vm_compute; lia | vm_compute; reflexivity].
Qed.

(** C7 as stated fails: with the unparsable file first, the run ends before
    the second file is looked at, although that file alone is edited,
    written and reported. *)
Lemma C7_remaining_files_are_not_processed :
  let run := cmd_delete sample_parse sample_xpath sample_write sample_glob
                        sample_diff in
  run (sample_args ["bad.xml"; "a.xml"] "/r/a") sample_world
  = (Raise (SystemExit 2 (py "XML parse failed for bad.xml")), sample_world)
  ∧ run (sample_args ["a.xml"] "/r/a") sample_world
    = (Ok 0%Z,
       {| files := <["a.xml" := py "<r></r>"]> (files sample_world);
          stdout := ["a.xml: 1 match(es), 1 change(s) (written)"] |}).
Proof. vm_compute. split; reflexivity. Qed.

Lemma C7_parse_error_ends_the_batch_witness :
  let a := sample_args ["a.xml"; "bad.xml"; "latin1.xml"] "/r/a" in
  let w1 := {| files := <["a.xml" := py "<r></r>"]> (files sample_world);
               stdout := ["a.xml: 1 match(es), 1 change(s) (written)"] |} in
  mutate_files sample_parse sample_xpath sample_write sample_glob sample_diff
    a apply_delete sample_world
  = (Raise (SystemExit 2 (py "XML parse failed for bad.xml")), w1).
Proof.
  intros a w1.
  apply (C7_parse_error_ends_the_batch
           sample_parse sample_xpath sample_write sample_glob sample_diff
           a ∅ apply_delete ["a.xml"] "bad.xml" ["latin1.xml"] sample_world w1
           (py "<r>"));
    vm_compute; reflexivity.
Defined.



(** *** The paths of a run *)




(** *** Namespace bindings *)

Lemma find_in_char c s i :
  find_in [c] s = Some i ↔ s !! i = Some c ∧ c ∉ take i s.
Proof.
  revert i. induction s as [|x s IH]; intros i; simpl.
  - split; [done | by intros [? _]].
  - destruct (c =? x)%N eqn:Hcx; simpl.
    + apply N.eqb_eq in Hcx as ->. split.
      * intros [= <-]. split; [done | apply not_elem_of_nil].
      * intros [Hi Hno]. destruct i as [|i]; [done |].
        exfalso. apply Hno. simpl. left.
    + apply N.eqb_neq in Hcx. destruct (find_in [c] s) as [j|] eqn:Hj; simpl.
      * split.
        -- intros [= <-]. destruct (proj1 (IH j) eq_refl) as [Hj' Hno].
           split; [done |]. simpl. by apply not_elem_of_cons.
        -- intros [Hi Hno]. destruct i as [|i]; [simpl in Hi; congruence |].
           simpl in Hno. apply not_elem_of_cons in Hno as [_ Hno].
           assert (Some j = Some i) as Hji by (by apply IH). congruence.
      * split; [done |]. intros [Hi Hno].
        destruct i as [|i]; [simpl in Hi; congruence |].
        simpl in Hno. apply not_elem_of_cons in Hno as [_ Hno].
        assert (None = Some i) as Hi' by (by apply IH). congruence.
Qed.

Lemma find_in_char_split c pre post :
  c ∉ pre → find_in [c] (pre ++ c :: post) = Some (length pre).
Proof.
  intros Hno. apply find_in_char. split.
  - by rewrite lookup_app_r, Nat.sub_diag by lia.
  - by rewrite take_app_length.
Qed.

Lemma split_unique c (p p' u u' : str) :
  c ∉ p → c ∉ p' → p ++ c :: u = p' ++ c :: u' → p = p' ∧ u = u'.
Proof.
  intros Hp Hp' Heq.
  assert (length p = length p') as Hlen.
  { pose proof (find_in_char_split c p u Hp) as H1.
    pose proof (find_in_char_split c p' u' Hp') as H2.
    rewrite Heq in H1. congruence. }
  apply app_inj_1 in Heq as [-> [= ->]]; done.
Qed.

Lemma ns_step_binding m p u item :
  ns_binding p u item → ns_step m item = Ok (<[p := u]> m).
Proof.
  intros (-> & Hno & Hp & Hu). unfold ns_step.
  change (p ++ [c_eq] ++ u) with (p ++ c_eq :: u).
  rewrite find_in_char_split by done.
  rewrite take_app_length.
  replace (drop (S (length p)) (p ++ c_eq :: u)) with u.
  2:{ rewrite (cons_middle c_eq p u), app_assoc.
      rewrite drop_app_length'; [done |]. rewrite length_app. simpl. lia. }
  by rewrite !bool_decide_eq_false_2.
Qed.

Lemma ns_step_Ok m item m' :
  ns_step m item = Ok m' → ∃ p u, ns_binding p u item ∧ m' = <[p := u]> m.
Proof.
  unfold ns_step. destruct (find_in [c_eq] item) as [i|] eqn:Hi; [| done].
  apply find_in_char in Hi as [Hi Hno].
  destruct (bool_decide (take i item = [])) eqn:Hp; [done |].
  destruct (bool_decide (drop (S i) item = [])) eqn:Hu; [done |].
  simpl. intros [= <-].
  apply bool_decide_eq_false_1 in Hp, Hu.
  exists (take i item), (drop (S i) item). split; [| done].
  split_and!; [| done..].
  rewrite <- (take_drop i item) at 1. f_equal. by apply drop_S.
Qed.

(** X5. [parse_ns] succeeds exactly when every item reads [prefix=uri]
    with both sides non-empty (the prefix ends at the first equals sign).
    The map it returns binds a prefix to a uri exactly when some item binds
    them and no later item binds the same prefix: a later binding
    replaces an earlier one. *)
Theorem parse_ns_reads_bindings (items : list str) :
  (is_ok (parse_ns items) = true
   ↔ Forall (λ item, ∃ p u, ns_binding p u item) items)
  ∧ ∀ m, parse_ns items = Ok m →
      ∀ p u, m !! p = Some u
        ↔ ∃ before item after,
            items = before ++ item :: after
            ∧ ns_binding p u item
            ∧ ∀ later u', later ∈ after → ¬ ns_binding p u' later.
Proof.
  change (parse_ns items) with (for_each ns_step ∅ items).
  induction items as [|x items IH] using rev_ind.
  { split; [done |]. simpl. intros m [= <-] p u. rewrite lookup_empty.
    split; [done |]. intros (before & item & after & Heq & _).
    by destruct before. }
  destruct IH as [IHok IHm]. rewrite for_each_app.
  destruct (for_each ns_step ∅ items) as [m0|e] eqn:Hrun; cbn [mbind result_bind].
  2:{ split.
      - split; [done |]. intros [Hall _]%Forall_app. apply IHok in Hall. done.
      - intros m. cbn [for_each]. done. }
  cbn [for_each]. split.
  - rewrite Forall_app, Forall_singleton. split.
    + destruct (ns_step m0 x) as [m'|] eqn:Hx; [| done]. intros _.
      split; [by apply IHok |].
      apply ns_step_Ok in Hx as (p & u & Hb & _). eauto.
    + intros [_ (p & u & Hb)]. by rewrite (ns_step_binding _ _ _ _ Hb).
  - intros m Hm.
    destruct (ns_step m0 x) as [m'|] eqn:Hx; [| done].
    cbn [mbind result_bind] in Hm. injection Hm as ->.
    apply ns_step_Ok in Hx as (p0 & u0 & Hb0 & ->).
    specialize (IHm m0 eq_refl). intros p u.
    destruct (decide (p = p0)) as [->|Hne].
    + rewrite lookup_insert_eq. split.
      * intros [= <-]. exists items, x, []. split_and!; [done.. |].
        intros later u' Hl. by apply elem_of_nil in Hl.
      * intros (before & item & after & Heq & Hb & Hlater).
        destruct after as [|y after _] using rev_ind.
        -- apply app_inj_tail in Heq as [_ <-].
           destruct Hb as (Hi & Hno & _), Hb0 as (Hi0 & Hno0 & _).
           rewrite Hi in Hi0. apply split_unique in Hi0 as [_ ->]; done.
        -- rewrite app_comm_cons, app_assoc in Heq.
           apply app_inj_tail in Heq as [_ <-].
           exfalso. apply (Hlater x u0); [| done].
           apply elem_of_app. right. left.
    + rewrite lookup_insert_ne by done. rewrite IHm. split.
      * intros (before & item & after & -> & Hb & Hlater).
        exists before, item, (after ++ [x]). split_and!; [| done |].
        -- by rewrite <- app_assoc.
        -- intros later u' [Hl | ->%list_elem_of_singleton]%elem_of_app.
           ++ by apply Hlater.
           ++ intros (Hi & Hno & _). destruct Hb0 as (Hi0 & Hno0 & _).
              rewrite Hi in Hi0. apply split_unique in Hi0 as [-> _]; done.
      * intros (before & item & after & Heq & Hb & Hlater).
        destruct after as [|y after _] using rev_ind.
        -- apply app_inj_tail in Heq as [_ <-].
           destruct Hb as (Hi & Hno & _), Hb0 as (Hi0 & Hno0 & _).
           rewrite Hi in Hi0. apply split_unique in Hi0 as [-> _]; done.
        -- rewrite app_comm_cons, app_assoc in Heq.
           apply app_inj_tail in Heq as [-> <-].
           exists before, item, after. split_and!; [done.. |].
           intros later u' Hl. apply Hlater. apply elem_of_app. by left.
Qed.

(** *** The matched items *)

Lemma omap_cons {A B} (f : A → option B) x l :
  omap f (x :: l)
  = match f x with Some y => y :: omap f l | None => omap f l end.
Proof. reflexivity. Qed.

(** X6. [ensure_elements] returns a list exactly when every item is an
    element, and then returns the elements in the order of the items; one
    item that is not an element makes it fail, whatever the others are. *)
Theorem ensure_elements_all_or_nothing (items : list item) (els : list nat) :
  (ensure_elements items = Ok els ↔ items = Element <$> els)
  ∧ ((∃ v, Scalar v ∈ items) →
     ensure_elements items
     = fail "XPath must select elements for this operation").
Proof.
  unfold ensure_elements.
  set (f := λ x, match x with Element el => Some el | Scalar _ => None end).
  assert (∀ l, length (omap f l) ≤ length l) as Hle.
  { induction l as [|[el|v] l IH]; [done | |]; rewrite omap_cons; simpl; lia. }
  assert (∀ l, length (omap f l) = length l → l = Element <$> omap f l) as Hall.
  { induction l as [|[el|v] l IH]; [done | |]; rewrite omap_cons; simpl;
      intros Hlen.
    - f_equal. apply IH. lia.
    - specialize (Hle l). lia. }
  assert (∀ l : list nat, omap f (Element <$> l) = l) as Hback.
  { induction l as [|el l IH]; [done |]. rewrite fmap_cons, omap_cons. simpl.
    by rewrite IH. }
  split.
  - split.
    + destruct (length (omap f items) =? length items) eqn:Hlen; simpl; [| done].
      apply Nat.eqb_eq in Hlen. intros [= <-]. by apply Hall.
    + intros ->. rewrite Hback, length_fmap, Nat.eqb_refl. done.
  - intros [v Hv].
    destruct (length (omap f items) =? length items) eqn:Hlen; simpl; [| done].
    apply Nat.eqb_eq, Hall in Hlen. rewrite Hlen in Hv.
    apply list_elem_of_fmap in Hv as (el & ? & _). done.
Qed.

(** *** Line starts *)

Lemma line_starts_from_spec idx text :
  StronglySorted lt (line_starts_from idx text)
  ∧ ∀ st, st ∈ line_starts_from idx text
          ↔ ∃ i, st = S (idx + i) ∧ text !! i = Some c_nl.
Proof.
  revert idx. induction text as [|ch text IH]; intros idx; simpl.
  - split; [constructor |]. intros st. split; [by intros ?%elem_of_nil |].
    by intros (i & _ & ?).
  - destruct (IH (S idx)) as [Hs Hm].
    assert (∀ st, (∃ i, st = S (S idx + i) ∧ text !! i = Some c_nl)
                  ↔ ∃ i, 0 < i ∧ st = S (idx + i) ∧ (ch :: text) !! i = Some c_nl)
      as Hshift.
    { intros st. split.
      - intros (i & -> & Hi). exists (S i). split_and!; [lia | f_equal; lia | done].
      - intros ([|i] & Hpos & -> & Hi); [lia |]. exists i. split; [f_equal; lia | done]. }
    destruct (ch =? c_nl)%N eqn:Hch.
    + apply N.eqb_eq in Hch as ->. split.
      * constructor; [done |]. apply Forall_forall. intros st Hst.
        apply Hm in Hst as (i & -> & _). lia.
      * intros st. rewrite elem_of_cons, Hm, Hshift. split.
        -- intros [-> | (i & _ & -> & Hi)]; [exists 0 | exists i]; split; try done.
        -- intros ([|i] & -> & Hi); [left; f_equal; lia |].
           right. exists (S i). split_and!; [lia | done | done].
    + apply N.eqb_neq in Hch. split; [done |].
      intros st. rewrite Hm, Hshift. split.
      * intros (i & _ & -> & Hi). by exists i.
      * intros ([|i] & -> & Hi); [simpl in Hi; congruence |].
        exists (S i). split_and!; [lia | done | done].
Qed.

(** X7. The offsets [line_starts] returns are strictly increasing; an
    offset is among them exactly when it is 0 or the position right after
    a newline character of the text; none lies past the end of the text. *)
Theorem line_starts_follow_newlines text :
  StronglySorted lt (line_starts text)
  ∧ (∀ st, st ∈ line_starts text
           ↔ st = 0 ∨ ∃ i, st = S i ∧ text !! i = Some c_nl)
  ∧ Forall (λ st, st ≤ length text) (line_starts text).
Proof.
  unfold line_starts. destruct (line_starts_from_spec 0 text) as [Hs Hm].
  assert (∀ st, st ∈ 0 :: line_starts_from 0 text
                ↔ st = 0 ∨ ∃ i, st = S i ∧ text !! i = Some c_nl) as Hmem.
  { intros st. rewrite elem_of_cons, Hm. done. }
  split_and!; [| done |].
  - constructor; [done |]. apply Forall_forall. intros st Hst.
    apply Hm in Hst as (i & -> & _). lia.
  - apply Forall_forall. intros st [-> | (i & -> & Hi)]%Hmem; [lia |].
    apply lookup_lt_Some in Hi. lia.
Qed.

(** *** Escaped text *)

(** X8. What the surgical mutators write for a value cannot end the place
    it is written to: an escaped attribute value holds no [<], no [>] and
    no occurrence of the quote character it is written between, and an
    escaped element text holds no [<] and no [>]. *)
Theorem escaped_text_is_inert (value : str) (q : N) :
  is_quote q = true →
  Forall (λ c, c ≠ c_lt ∧ c ≠ c_gt ∧ c ≠ q) (escape_attr value [q])
  ∧ Forall (λ c, c ≠ c_lt ∧ c ≠ c_gt) (xml_escape value None).
Proof.
  intros Hq. split.
  - rewrite escape_attr_charwise by done.
    apply Forall_forall. intros c (x & _ & Hc)%list_elem_of_In%in_flat_map.
    revert Hc. unfold escape_char, is_quote in *.
    apply orb_true_iff in Hq as [->%N.eqb_eq | ->%N.eqb_eq];
      repeat case_match;
      repeat match goal with H : (_ =? _)%N = false |- _ => apply N.eqb_neq in H end;
      simpl; intros Hin; repeat (destruct Hin as [<- | Hin]; [done |]); done.
  - unfold xml_escape.
    assert (replace1 c_lt (py "&lt;")
              (replace1 c_gt (py "&gt;") (replace1 c_amp (py "&amp;") value))
            = flat_map (λ c, if (c =? c_amp)%N then py "&amp;"
                              else if (c =? c_gt)%N then py "&gt;"
                              else if (c =? c_lt)%N then py "&lt;"
                              else [c]) value) as ->.
    { unfold replace1 at 3.
      rewrite !replace1_flat_map. apply flat_map_ext. intros c.
      destruct (c =? c_amp)%N eqn:Ha; [reflexivity |]. simpl.
      destruct (c =? c_gt)%N eqn:Hg; [reflexivity |]. simpl.
      destruct (c =? c_lt)%N eqn:Hl; reflexivity. }
    apply Forall_forall. intros c (x & _ & Hc)%list_elem_of_In%in_flat_map.
    revert Hc. repeat case_match;
      repeat match goal with H : (_ =? _)%N = false |- _ => apply N.eqb_neq in H end;
      simpl; intros Hin; repeat (destruct Hin as [<- | Hin]; [done |]); done.
Qed.

Lemma escaped_text_is_inert_witness :
  Forall (λ c, c ≠ c_lt ∧ c ≠ c_gt ∧ c ≠ c_dquote)
         (escape_attr (py "a<b>'c'") [c_dquote])
  ∧ Forall (λ c, c ≠ c_lt ∧ c ≠ c_gt) (xml_escape (py "a<b>'c'") None).
Proof.
  apply (escaped_text_is_inert (py "a<b>'c'") c_dquote). reflexivity.
Defined.

(** *** Removing an attribute *)

(** The leftmost match: with [must_advance] off, [search_from] returns the
    match at the first offset where one exists. *)
Lemma search_from_leftmost r subj pos rest m :
  search_from r subj false pos rest = Some m →
  ∃ n, n ≤ length rest
    ∧ match_at r subj false (pos + n) (drop n rest) = Some m
    ∧ ∀ j, j < n → match_at r subj false (pos + j) (drop j rest) = None.
Proof.
  revert pos. induction rest as [|a rest IH]; intros pos; simpl.
  - destruct (match_at r subj false pos []) eqn:Hm; [| done].
    intros [= ->]. exists 0. rewrite Nat.add_0_r. split_and!; [done.. | lia].
  - destruct (match_at r subj false pos (a :: rest)) eqn:Hm.
    + intros [= ->]. exists 0. rewrite Nat.add_0_r. split_and!; [lia | done | lia].
    + intros (n & Hn & Hm' & Hbefore)%IH. exists (S n). simpl.
      split_and!; [lia | by replace (pos + S n) with (S pos + n) by lia |].
      intros [|j] Hj; simpl.
      * by rewrite Nat.add_0_r.
      * replace (pos + S j) with (S pos + j) by lia. apply Hbefore. lia.
Qed.

(** A lazy repetition stops at the first place where the rest of the
    pattern matches. *)
Lemma rep_lazy_shortest p k pos rest c r :
  rep_lazy p k 0 pos rest c = Some r →
  ∃ w rest', rest = w ++ rest' ∧ Forall (λ x, p x = true) w
    ∧ k (pos + length w) rest' c = Some r
    ∧ ∀ i, i < length w → k (pos + i) (drop i rest) c = None.
Proof.
  revert pos. induction rest as [|x rest IH]; intros pos; simpl.
  - destruct (k pos [] c) eqn:Hk; [| done].
    intros [= ->]. exists [], []. simpl. rewrite Nat.add_0_r.
    split_and!; [done.. | lia].
  - destruct (k pos (x :: rest) c) eqn:Hk.
    + intros [= ->]. exists [], (x :: rest). simpl. rewrite Nat.add_0_r.
      split_and!; [done.. | lia].
    + destruct (p x) eqn:Hx; [| done].
      intros (w & rest' & -> & Hw & Hk' & Hbefore)%IH.
      exists (x :: w), rest'. simpl. split_and!; [done | by constructor | |].
      * by replace (pos + S (length w)) with (S pos + length w) by lia.
      * intros [|i] Hi; simpl.
        -- by rewrite Nat.add_0_r.
        -- replace (pos + S i) with (S pos + i) by lia. apply Hbefore. lia.
Qed.

(** The shape of a match of the pattern of [del_attr_in_tag]; the value
    ends at the first quote character that equals the opening one. *)
Lemma del_attr_match_shape name tag_text m :
  re_search (del_attr_pattern name) tag_text = Some m →
  ∃ pre ws1 ws2 ws3 q v post,
    tag_text = pre ++ ws1 ++ name ++ ws2 ++ [c_eq] ++ ws3 ++ [q] ++ v ++ [q] ++ post
    ∧ Forall (λ a, isspace a = true) ws1 ∧ ws1 ≠ []
    ∧ Forall (λ a, isspace a = true) ws2
    ∧ Forall (λ a, isspace a = true) ws3
    ∧ is_quote q = true
    ∧ Forall (λ a, a ≠ c_nl ∧ a ≠ q) v
    ∧ take (m_start m) tag_text = pre
    ∧ drop (m_end m) tag_text = post.
Proof.
  unfold re_search. intros (n & Hn & Hm & _)%search_from_leftmost.
  rewrite Nat.add_0_l in Hm. unfold match_at in Hm.
  destruct (run _ _ _ _ _ _) as [[e c]|] eqn:Hrun; [| done].
  cbn [mbind option_bind] in Hm. injection Hm as <-.
  unfold del_attr_pattern in Hrun.
  set (pre := take n tag_text).
  assert (length pre = n) as Hpre by (unfold pre; rewrite length_take; lia).
  assert (tag_text = pre ++ drop n tag_text) as Htag
    by (unfold pre; by rewrite take_drop).
  remember (drop n tag_text) as rest eqn:Hrest. clear Hrest.
  cbn [run] in Hrun.
  apply rep_greedy_sound in Hrun as (ws1 & rest1 & -> & Hws1 & Hmin1 & Hrun).
  destruct (startswith name rest1) eqn:Hname; [| done].
  apply startswith_app in Hname as [rest2 ->]. rewrite drop_app_length in Hrun.
  apply rep_greedy_sound in Hrun as (ws2 & rest3 & -> & Hws2 & _ & Hrun).
  destruct (startswith [c_eq] rest3) eqn:Heq; [| done].
  apply startswith_app in Heq as [rest4 ->]. rewrite drop_app_length in Hrun.
  apply rep_greedy_sound in Hrun as (ws3 & rest5 & -> & Hws3 & _ & Hrun).
  destruct rest5 as [|q rest6]; [done |].
  destruct (is_quote q) eqn:Hq; [| done].
  cbn [opened closed] in Hrun. rewrite assoc_here in Hrun.
  apply rep_lazy_shortest in Hrun as (v & rest7 & -> & Hv & Hrun & Hshort).
  cbn [opened closed] in Hrun, Hshort. rewrite assoc_here in Hrun.
  unfold group_text in Hrun. cbn [opened closed] in Hrun.
  rewrite assoc_next, assoc_here in Hrun by lia.
  cbn [mbind option_bind] in Hrun.
  set (lead := ws1 ++ name ++ ws2 ++ [c_eq] ++ ws3) in *.
  set (p2 := n + length ws1 + length name + length ws2 + length [c_eq] +
             length ws3) in *.
  assert (p2 = length pre + length lead) as Hp2.
  { unfold p2, lead. rewrite !length_app. simpl. lia. }
  assert (tag_text = pre ++ lead ++ [q] ++ v ++ rest7) as Htag'.
  { rewrite Htag. unfold lead. by rewrite <- !app_assoc. }
  assert (take (S p2 - p2) (drop p2 tag_text) = [q]) as Hgq.
  { apply (group_at tag_text (pre ++ lead) [q] (v ++ rest7)).
    - by rewrite <- !app_assoc.
    - by rewrite length_app.
    - rewrite length_app. simpl. lia. }
  rewrite Hgq in Hrun.
  destruct (startswith [q] rest7) eqn:Hclose; [| done].
  apply startswith_app in Hclose as [post ->].
  cbn [andb] in Hrun. injection Hrun as <- <-.
  exists pre, ws1, ws2, ws3, q, v, post.
  assert (tag_text = pre ++ lead ++ [q] ++ v ++ [q] ++ post) as Hall
    by exact Htag'.
  split_and!; try done.
  - destruct ws1; [simpl in Hmin1; lia | done].
  - apply Forall_lookup_2. intros i a Hi. split.
    + rewrite Forall_lookup in Hv. specialize (Hv _ _ Hi). intros ->. done.
    + intros ->.
      assert (i < length v) as Hlt by (by apply lookup_lt_Some in Hi).
      specialize (Hshort i Hlt). rewrite assoc_here in Hshort.
      unfold group_text in Hshort. cbn [opened closed] in Hshort.
      rewrite assoc_next, assoc_here in Hshort by lia.
      cbn [mbind option_bind] in Hshort. rewrite Hgq in Hshort.
      rewrite drop_app_le in Hshort by lia.
      rewrite (drop_S _ _ _ Hi) in Hshort. simpl in Hshort.
      rewrite N.eqb_refl in Hshort. done.
  - cbn [m_end]. rewrite Hall at 1.
    rewrite !app_assoc. apply drop_app_length'.
    rewrite !length_app. simpl. lia.
Qed.

(** X9. [del_attr_in_tag] never raises. When its pattern finds no
    assignment of the name, the tag text is returned as it is, with
    [False]. Otherwise the tag text holds white space, the name, an equals
    sign with optional white space around it, and a value between two
    equal quote characters, without a newline or that quote character in
    it; the result is the tag text without all of this (the leading white
    space included), what stands before and after it joined, with
    [True]. *)
Theorem del_attr_in_tag_removes_assignment tag_text name :
  match re_search (del_attr_pattern name) tag_text with
  | None => del_attr_in_tag tag_text name = Ok (tag_text, false)
  | Some _ =>
      ∃ pre ws1 ws2 ws3 q v post,
        tag_text =
          pre ++ ws1 ++ name ++ ws2 ++ [c_eq] ++ ws3 ++ [q] ++ v ++ [q] ++ post
        ∧ ws1 ≠ []
        ∧ Forall (λ a, isspace a = true) (ws1 ++ ws2 ++ ws3)
        ∧ is_quote q = true
        ∧ Forall (λ a, a ≠ c_nl ∧ a ≠ q) v
        ∧ del_attr_in_tag tag_text name = Ok (pre ++ post, true)
  end.
Proof.
  unfold del_attr_in_tag.
  destruct (re_search (del_attr_pattern name) tag_text) as [m|] eqn:Hm; [| done].
  destruct (del_attr_match_shape _ _ _ Hm)
    as (pre & ws1 & ws2 & ws3 & q & v & post & Htag & Hws1 & Hne & Hws2 & Hws3
        & Hq & Hv & Hpre & Hpost).
  exists pre, ws1, ws2, ws3, q, v, post. split_and!; try done.
  - rewrite !Forall_app. done.
  - rewrite (re_sub_first_plain _ _ _ _ m); [| apply not_elem_of_nil | done].
    cbn [mbind result_bind]. by rewrite Hpre, Hpost.
Qed.

(** *** Inserting an attribute *)

Lemma lstrip_app_space ws s :
  Forall (λ a, isspace a = true) ws → lstrip (ws ++ s) = lstrip s.
Proof.
  induction 1 as [|c ws Hc _ IH]; simpl; [done |]. by rewrite Hc.
Qed.

(** Trailing white space goes, what stands before a last character that is
    not white space stays. *)
Lemma rstrip_app_space s c ws :
  isspace c = false → Forall (λ a, isspace a = true) ws →
  rstrip (s ++ [c] ++ ws) = s ++ [c].
Proof.
  intros Hc Hws. unfold rstrip.
  rewrite !reverse_app, <- app_assoc, lstrip_app_space by by apply Forall_reverse.
  rewrite reverse_singleton. simpl. rewrite Hc.
  rewrite reverse_cons, reverse_involutive. done.
Qed.

Lemma endswith_app p s : endswith p s = true ↔ ∃ body, s = body ++ p.
Proof.
  unfold endswith. rewrite startswith_app. split.
  - intros [rest Hs]. exists (reverse rest).
    apply (inj reverse). by rewrite reverse_app, !reverse_involutive.
  - intros [body ->]. exists (reverse body). by rewrite reverse_app.
Qed.

Lemma rfind_None needle s :
  (∀ j, j ≤ length s → startswith needle (drop j s) = false) →
  rfind needle s = None.
Proof.
  induction s as [|x s IH]; intros Hno; simpl.
  - pose proof (Hno 0 (le_n 0)) as H0. simpl in H0. by rewrite H0.
  - rewrite IH.
    + pose proof (Hno 0 (Nat.le_0_l _)) as H0. simpl in H0. by rewrite H0.
    + intros j Hj. apply (Hno (S j)). simpl. lia.
Qed.

(** [rfind] returns the last place where the needle stands. *)
Lemma rfind_last needle a b :
  startswith needle b = true →
  (∀ j, 0 < j ≤ length b → startswith needle (drop j b) = false) →
  rfind needle (a ++ b) = Some (length a).
Proof.
  intros Hhere Hafter. induction a as [|x a IH]; simpl.
  - destruct b as [|y b]; simpl.
    + by rewrite Hhere.
    + rewrite rfind_None.
      * by rewrite Hhere.
      * intros j Hj. apply (Hafter (S j)). simpl. lia.
  - by rewrite IH.
Qed.

Lemma insert_at_last needle insert body ws :
  needle ≠ [] →
  (∀ c, head needle = Some c → isspace c = false) →
  (∀ j, 0 < j < length needle → startswith needle (drop j needle ++ ws) = false) →
  Forall (λ a, isspace a = true) ws →
  insert_at_rfind needle insert (body ++ needle ++ ws)
  = body ++ insert ++ needle ++ ws.
Proof.
  intros Hne Hhead Hself Hws. unfold insert_at_rfind.
  rewrite (rfind_last needle body (needle ++ ws)).
  - simpl. by rewrite take_app_length, drop_app_length.
  - apply startswith_app. by exists ws.
  - intros j Hj. destruct (decide (j < length needle)) as [Hlt|Hge].
    + rewrite drop_app_le by lia. apply Hself. lia.
    + rewrite drop_app_ge by lia.
      destruct needle as [|c needle]; [done |].
      specialize (Hhead c eq_refl).
      destruct (drop (j - length (c :: needle)) ws) as [|y rest] eqn:Hd; [done |].
      simpl. assert (isspace y = true) as Hy.
      { rewrite Forall_forall in Hws. apply Hws.
        eapply elem_of_sublist; [| apply sublist_drop]. rewrite Hd. left. }
      destruct (c =? y)%N eqn:Hcy; [| done].
      apply N.eqb_eq in Hcy as ->. congruence.
Qed.

(** X10. When the pattern of [set_attr_in_tag] finds no assignment of the
    name, and the tag text ends, white space aside, in [/>] or in [>], the
    new attribute (a space, the name, the equals sign, the escaped value
    between double quotes) is inserted right before that final [/>] or
    [>]; the rest of the tag text, trailing white space included, is
    kept. *)
Theorem set_attr_in_tag_inserts_before_close tag_text name value body closer ws :
  re_search (set_attr_pattern name) tag_text = None →
  tag_text = body ++ closer ++ ws →
  Forall (λ a, isspace a = true) ws →
  closer = py "/>" ∨ closer = py ">" ∧ last body ≠ Some c_slash →
  set_attr_in_tag tag_text name value
  = Ok (body ++ attr_insert name value ++ closer ++ ws, true).
Proof.
  intros Hm -> Hws Hcloser. unfold set_attr_in_tag. rewrite Hm.
  fold (attr_insert name value).
  destruct Hcloser as [-> | [-> Hlast]].
  - replace (body ++ py "/>" ++ ws) with ((body ++ [c_slash]) ++ [c_gt] ++ ws)
      at 1 by (by rewrite <- app_assoc).
    rewrite rstrip_app_space by done.
    rewrite (proj2 (endswith_app (py "/>") _)) by (exists body; by rewrite <- app_assoc).
    rewrite insert_at_last; [done | done | by intros c [= <-] | | done].
    intros [|[|j]] Hj; simpl in Hj; [lia | done | lia].
  - replace (rstrip (body ++ py ">" ++ ws)) with (body ++ [c_gt])
      by (symmetry; by apply rstrip_app_space).
    assert (endswith (py "/>") (body ++ [c_gt]) = false) as ->.
    { apply not_true_is_false. intros [b Hb]%endswith_app.
      change (py "/>") with ([c_slash] ++ [c_gt]) in Hb.
      rewrite app_assoc in Hb. apply app_inj_tail in Hb as [-> _].
      by rewrite last_snoc in Hlast. }
    rewrite (proj2 (endswith_app (py ">") _)) by by exists body.
    rewrite insert_at_last; [done | done | by intros c [= <-] | | done].
    intros [|j] Hj; simpl in Hj; lia.
Qed.

Lemma set_attr_in_tag_inserts_before_close_witness :
  set_attr_in_tag (py "<a b='1' />  ") (py "id") (py "x<y")
  = Ok (py "<a b='1' " ++ attr_insert (py "id") (py "x<y") ++ py "/>" ++ py "  ",
        true).
Proof.
  apply set_attr_in_tag_inserts_before_close.
  - vm_compute. reflexivity.
  - reflexivity.
  - repeat constructor.
  - left. reflexivity.
Defined.

(** *** One element under the surgical mutators *)

Lemma text_around_tag text s e :
  s ≤ e < length text →
  text = take s text ++ tag_text_at text (s, e) ++ drop (S e) text.
Proof.
  intros H. unfold tag_text_at. simpl.
  rewrite <- (take_drop s text) at 1. f_equal.
  rewrite <- (take_drop (S e - s) (drop s text)) at 1. f_equal.
  rewrite drop_drop. f_equal. lia.
Qed.

(** X11. [apply_attr_surgical] on one element whose opening tag is located
    at the span from [s] to [e]: when it returns, the text before [s] and
    the text after [e] are those of the input. Either the count is 0 and
    the tag is as it was, or the count is 1 and the tag is the different
    tag text that [set_attr_in_tag] or [del_attr_in_tag] returned with
    [True]. *)
Theorem apply_attr_surgical_touches_one_tag text el name value set_value s e r n :
  tag_span text el = Some (s, e) →
  apply_attr_surgical text [el] name value set_value = Ok (r, n) →
  ∃ new_tag,
    r = take s text ++ new_tag ++ drop (S e) text
    ∧ (n = 0 ∧ new_tag = tag_text_at text (s, e)
       ∨ n = 1 ∧ new_tag ≠ tag_text_at text (s, e)
         ∧ (if set_value
            then set_attr_in_tag (tag_text_at text (s, e)) name (default [] value)
            else del_attr_in_tag (tag_text_at text (s, e)) name)
           = Ok (new_tag, true)).
Proof.
  intros Hspan. pose proof (tag_span_bounds _ _ _ _ Hspan) as Hb.
  unfold apply_attr_surgical, attr_edits. cbn [for_each].
  rewrite attr_step_span, Hspan.
  rewrite decide_False by apply not_elem_of_empty.
  destruct (if set_value then _ else _) as [[new_tag changed]|err] eqn:Hedit;
    [| done].
  cbn [mbind result_bind fst snd].
  destruct (changed && negb (str_eqb new_tag (tag_text_at text (s, e)))) eqn:Hc.
  - cbn [fmap result_fmap mbind result_bind fst]. intros [= <- <-].
    exists new_tag. split; [reflexivity |]. right.
    apply andb_true_iff in Hc as [-> Hne]. split_and!; [done | | done].
    apply negb_true_iff in Hne. unfold str_eqb in Hne.
    by apply bool_decide_eq_false_1 in Hne.
  - cbn [fmap result_fmap mbind result_bind fst]. intros [= <- <-].
    exists (tag_text_at text (s, e)). split; [| by left].
    simpl. by apply text_around_tag.
Qed.

Lemma apply_attr_surgical_touches_one_tag_witness :
  let text := py "<r><a/></r>" in
  let r := py "<r><a id=" ++ [c_dquote] ++ py "1" ++ [c_dquote] ++ py "/></r>" in
  ∃ new_tag,
    r = take 3 text ++ new_tag ++ drop 7 text
    ∧ (1 = 0 ∧ new_tag = tag_text_at text (3, 6)
       ∨ 1 = 1 ∧ new_tag ≠ tag_text_at text (3, 6)
         ∧ set_attr_in_tag (tag_text_at text (3, 6)) (py "id") (py "1")
           = Ok (new_tag, true)).
Proof.
  intros text r.
  apply (apply_attr_surgical_touches_one_tag text (leaf "a" 1) (py "id")
           (Some (py "1")) true 3 6 r 1); vm_compute; reflexivity.
Defined.

(** X12. [apply_text_surgical] on one element without child elements whose
    opening tag is located and is not self-closing, when the closing tag is
    found at [idx] after it: the result is the text up to the end of the
    opening tag, the escaped value, and the text from the closing tag on,
    with count 1. *)
Theorem apply_text_surgical_replaces_content text el value s e idx :
  children el = [] →
  tag_span text el = Some (s, e) →
  re_search self_closing_pattern (tag_text_at text (s, e)) = None →
  find (py "</" ++ local_tag (tag el) ++ [c_gt]) text (S e) = Some idx →
  S e ≤ idx
  ∧ startswith (py "</" ++ local_tag (tag el) ++ [c_gt]) (drop idx text) = true
  ∧ apply_text_surgical text [el] value
    = Ok (take (S e) text ++ xml_escape value None ++ drop idx text, 1).
Proof.
  intros Hleaf Hspan Hself Hfind.
  destruct (find_startswith _ _ _ _ Hfind) as [Hle Hsw].
  split_and!; [done.. |].
  unfold apply_text_surgical, text_edits. cbn [for_each].
  rewrite text_step_span, Hleaf, Hspan. cbn [length Nat.eqb negb].
  rewrite decide_False by apply not_elem_of_empty.
  rewrite Hself, bool_decide_eq_false_2 by (by intros [? ?]).
  rewrite Hfind. reflexivity.
Qed.

Lemma apply_text_surgical_replaces_content_witness :
  3 ≤ 6
  ∧ startswith (py "</" ++ local_tag (py "a") ++ [c_gt])
               (drop 6 (py "<a>old</a>")) = true
  ∧ apply_text_surgical (py "<a>old</a>") [leaf "a" 1] (py "x<y")
    = Ok (take 3 (py "<a>old</a>") ++ xml_escape (py "x<y") None
          ++ drop 6 (py "<a>old</a>"), 1).
Proof.
  apply (apply_text_surgical_replaces_content (py "<a>old</a>") (leaf "a" 1)
           (py "x<y") 0 2 6); vm_compute; reflexivity.
Defined.

(** *** The structural mutators on one element *)


Lemma get_text_set_children s p ch j :
  get_text (set_children s p ch) j = get_text s j.
Proof.
  unfold get_text, set_children. rewrite list_lookup_alter.
  case_decide; subst; [| done]. by destruct (s !! j).
Qed.

(** [parent.index(el)] is the first place where [el] stands. *)
Lemma index_of_first s p el i :
  index_of s p el = Ok i ↔
  get_children s p !! i = Some el ∧ ∀ j, j < i → get_children s p !! j ≠ Some el.
Proof.
  unfold index_of.
  destruct (list_find _ _) as [[i' x]|] eqn:Hf.
  - apply list_find_Some in Hf as (Hi & -> & Hbefore). split.
    + intros [= <-]. split; [done |]. intros j Hj Hjj.
      by apply (Hbefore j el Hjj).
    + intros [Hi2 Hb2]. f_equal.
      destruct (Nat.lt_trichotomy i i') as [Hlt | [-> | Hgt]]; [| done |].
      * exfalso. by apply (Hbefore i el Hi2).
      * exfalso. by apply (Hb2 i' Hgt).
  - split; [done |]. intros [Hi _]. exfalso.
    apply list_find_None in Hf. rewrite Forall_forall in Hf.
    apply (Hf el); [| done]. by eapply list_elem_of_lookup_2.
Qed.

(** A loop whose body adds [k] to the count at every turn. *)
Lemma for_each_count {S A} (step : S * nat → A → result (S * nat)) k :
  (∀ s n x s' n', step (s, n) x = Ok (s', n') → n' = n + k) →
  ∀ l s n s' n', for_each step (s, n) l = Ok (s', n') → n' = n + k * length l.
Proof.
  intros Hstep. induction l as [|x l IH]; intros s n s' n'; simpl.
  - intros [= <- <-]. lia.
  - destruct (step (s, n) x) as [[s1 n1]|e] eqn:Hx; [| done].
    cbn [mbind result_bind]. intros Hl. apply IH in Hl.
    apply Hstep in Hx. lia.
Qed.

(** X13. The count a structural mutator returns: [apply_delete] and
    [apply_replace] count one change per matched element, [apply_insert]
    one per copy it inserts, that is the number of fragment nodes for each
    matched element. *)
Theorem structural_change_counts elements nodes position indent s s' n :
  (apply_delete elements s = Ok (s', n) → n = length elements)
  ∧ (apply_replace elements nodes indent s = Ok (s', n) → n = length elements)
  ∧ (apply_insert elements nodes position indent s = Ok (s', n)
     → n = length elements * length nodes).
Proof.
  split_and!.
  - intros H. apply (for_each_count _ 1) in H; [lia |].
    clear. intros s n el s' n'. unfold delete_step.
    destruct (getparent s el); [| done].
    destruct (remove_child s _ el); [| done]. by intros [= <- <-].
  - intros H. apply (for_each_count _ 1) in H; [lia |].
    clear. intros s n el s' n'. unfold replace_step.
    destruct (getparent s el) as [p|]; [| done].
    destruct (index_of s p el); [| done]. cbn [mbind result_bind].
    destruct (deepcopy_all nodes s) as [s1 clones].
    destruct (remove_child _ _ _); [| done]. by intros [= <- <-].
  - intros H. apply (for_each_count _ (length nodes)) in H; [lia |].
    clear. intros s n el s' n'. unfold insert_step.
    pose proof (deepcopy_all_fresh nodes s) as [_ Hlen].
    destruct (deepcopy_all nodes s) as [s1 clones]. simpl in Hlen.
    case_bool_decide.
    + destruct (getparent s el) as [p|]; [| done].
      destruct (index_of s p el); [| done]. cbn [mbind result_bind].
      intros [= <- <-]. lia.
    + case_bool_decide; [| done]. intros [= <- <-]. lia.
Qed.


(** X14. [apply_delete] on one element that has a parent: the element is
    taken out of its parent's list of children at the first place where it
    stands; the other children keep their order, every other list of
    children and every leading and trailing text stay as they are, and the
    count is 1. In a tree, where the element stands once under one parent,
    the element has no parent afterwards. *)
Theorem apply_delete_detaches s el p :
  getparent s el = Some p →
  ∃ s' i,
    apply_delete [el] s = Ok (s', 1)
    ∧ length s' = length s
    ∧ index_of s p el = Ok i
    ∧ get_children s' p = delete i (get_children s p)
    ∧ (∀ j, j ≠ p → get_children s' j = get_children s j)
    ∧ (∀ j, get_text s' j = get_text s j ∧ get_tail s' j = get_tail s j)
    ∧ ((∀ j, el ∈ get_children s j → j = p) → NoDup (get_children s p) →
       getparent s' el = None).
Proof.
  intros Hp. destruct (getparent_Some _ _ _ Hp) as [Hplt Hin].
  destruct (index_of_elem _ _ _ Hin) as (i & Hi & Hilt).
  exists (set_children s p (delete i (get_children s p))), i.
  split_and!.
  - unfold apply_delete. cbn [for_each]. unfold delete_step. rewrite Hp.
    unfold remove_child. rewrite Hi. reflexivity.
  - apply length_set_children.
  - done.
  - rewrite get_children_set_children. by rewrite decide_True.
  - intros j Hj. rewrite get_children_set_children.
    by rewrite decide_False by (intros [? _]; done).
  - intros j. by rewrite get_text_set_children, get_tail_set_children.
  - intros Honly Hnd. apply getparent_None. intros j.
    rewrite get_children_set_children. case_decide as Hj.
    + apply index_of_first in Hi as [Hi _].
      intros Hel. apply list_elem_of_lookup in Hel as [k Hk].
      destruct (decide (k < i)).
      * rewrite list_lookup_delete_lt in Hk by done.
        pose proof (NoDup_lookup _ _ _ _ Hnd Hk Hi). lia.
      * rewrite list_lookup_delete_ge in Hk by lia.
        pose proof (NoDup_lookup _ _ _ _ Hnd Hk Hi). lia.
    + intros Hel. specialize (Honly j Hel) as ->. apply Hj. done.
Qed.

Lemma apply_delete_detaches_witness :
  ∃ s' i,
    apply_delete [1] indented_store = Ok (s', 1)
    ∧ length s' = length indented_store
    ∧ index_of indented_store 0 1 = Ok i
    ∧ get_children s' 0 = delete i (get_children indented_store 0)
    ∧ (∀ j, j ≠ 0 → get_children s' j = get_children indented_store j)
    ∧ (∀ j, get_text s' j = get_text indented_store j
            ∧ get_tail s' j = get_tail indented_store j)
    ∧ ((∀ j, 1 ∈ get_children indented_store j → j = 0) →
       NoDup (get_children indented_store 0) →
       getparent s' 1 = None).
Proof.
  apply (apply_delete_detaches indented_store 1 0). vm_compute. reflexivity.
Defined.









(** *** Counting the children *)

Lemma str_ltb_trans a b c :
  str_ltb a b = true → str_ltb b c = true → str_ltb a c = true.
Proof.
  revert b c. induction a as [|x a IH]; intros [|y b] [|z c]; simpl; try done.
  rewrite !orb_true_iff, !andb_true_iff, !N.ltb_lt, !N.eqb_eq.
  intros [Hxy | [-> Hab]] [Hyz | [-> Hbc]].
  - left. lia.
  - by left.
  - by left.
  - right. split; [done |]. by eapply IH.
Qed.

Lemma str_ltb_total a b : str_ltb a b = true ∨ a = b ∨ str_ltb b a = true.
Proof.
  revert b. induction a as [|x a IH]; intros [|y b]; simpl; auto.
  destruct (N.lt_trichotomy x y) as [Hlt | [-> | Hgt]].
  - left. apply N.ltb_lt in Hlt. by rewrite Hlt.
  - rewrite N.ltb_irrefl, N.eqb_refl. simpl.
    destruct (IH b) as [? | [-> | ?]]; auto.
  - right. right. apply N.ltb_lt in Hgt. by rewrite Hgt.
Qed.

Lemma item_le_total : Total item_le.
Proof.
  intros [t1 n1] [t2 n2]. unfold item_le. simpl.
  destruct (str_ltb_total t1 t2) as [? | [-> | ?]]; auto.
  destruct (decide (n1 ≤ n2)); [left | right]; right; split; (done || lia).
Qed.

Lemma item_le_trans : Transitive item_le.
Proof.
  intros [t1 n1] [t2 n2] [t3 n3]. unfold item_le. simpl.
  intros [H12 | [-> H12]] [H23 | [-> H23]].
  - left. by eapply str_ltb_trans.
  - by left.
  - by left.
  - right. split; [done | lia].
Qed.

Lemma sum_list_perm (l1 l2 : list nat) : l1 ≡ₚ l2 → sum_list l1 = sum_list l2.
Proof. induction 1; simpl; lia. Qed.

(** The dict of counts after the loop over the tags. *)
Lemma counts_fold (tags done_ : list str) (counts : gmap str nat) :
  (∀ t, counts !! t
        = if decide (occurrences t done_ = 0) then None
          else Some (occurrences t done_)) →
  sum_list (snd <$> map_to_list counts) = length done_ →
  let counts' :=
    foldl (λ (counts : gmap str nat) tag,
             <[tag := default 0 (counts !! tag) + 1]> counts) counts tags in
  (∀ t, counts' !! t
        = if decide (occurrences t (done_ ++ tags) = 0) then None
          else Some (occurrences t (done_ ++ tags)))
  ∧ sum_list (snd <$> map_to_list counts') = length (done_ ++ tags).
Proof.
  revert done_ counts. induction tags as [|x tags IH]; intros done_ counts Hm Hsum.
  { simpl. by rewrite app_nil_r. }
  cbn [foldl]. cbv zeta.
  replace (done_ ++ x :: tags) with ((done_ ++ [x]) ++ tags)
    by (by rewrite <- app_assoc).
  apply IH.
  - intros t. unfold occurrences in *. rewrite filter_app, length_app.
    destruct (decide (t = x)) as [->|Hne].
    + rewrite lookup_insert_eq, Hm.
      rewrite filter_cons_True by done. simpl.
      set (k := length (filter (λ x0, x0 = x) done_)).
      rewrite (decide_False (P := k + 1 = 0)) by lia.
      destruct (decide (k = 0)) as [H0|H0]; simpl; f_equal; lia.
    + rewrite lookup_insert_ne by done. rewrite Hm.
      rewrite filter_cons_False by (by intros ->). simpl.
      rewrite Nat.add_0_r. done.
  - rewrite length_app. simpl.
    destruct (counts !! x) as [n|] eqn:Hx; simpl.
    + rewrite <- (insert_delete_eq counts x (n + 1)).
      rewrite (sum_list_perm _ _ (fmap_Permutation snd _ _
                 (map_to_list_insert (delete x counts) x (n + 1)
                    (lookup_delete_eq counts x)))).
      rewrite <- Hsum.
      rewrite <- (sum_list_perm _ _ (fmap_Permutation snd _ _
                    (map_to_list_delete counts x n Hx))).
      rewrite !fmap_cons. cbn [sum_list sum_list_with snd]. unfold id. lia.
    + rewrite (sum_list_perm _ _ (fmap_Permutation snd _ _
                 (map_to_list_insert counts x 1 Hx))).
      rewrite fmap_cons. cbn [sum_list sum_list_with snd]. rewrite <- Hsum.
      unfold id. lia.
Qed.

(** X17. [child_tag_counts] lists every tag that stands among the children
    of the element exactly once, with the number of children that carry
    it, which is never 0; the tags come in strictly ascending order (by
    code point, as Python compares strings), and the counts add up to the
    number of children. *)
Theorem child_tag_counts_tally s el :
  let tags := tag_of s <$> get_children s el in
  StronglySorted (λ a b, str_ltb a.1 b.1 = true) (child_tag_counts s el)
  ∧ (∀ t n, (t, n) ∈ child_tag_counts s el
            ↔ n = occurrences t tags ∧ 0 < n)
  ∧ sum_list (snd <$> child_tag_counts s el) = length tags.
Proof.
  intros tags. unfold child_tag_counts.
  set (counts := foldl _ ∅ (get_children s el)).
  assert (counts
          = foldl (λ (counts : gmap str nat) tag,
                     <[tag := default 0 (counts !! tag) + 1]> counts) ∅ tags)
    as Hcounts.
  { unfold counts, tags. generalize (∅ : gmap str nat).
    induction (get_children s el) as [|c l IH]; intros m; simpl; [done |].
    by rewrite IH. }
  destruct (counts_fold tags [] ∅) as [Hm Hsum]; [done | done |].
  simpl in Hm, Hsum. rewrite <- Hcounts in Hm, Hsum.
  pose proof (merge_sort_Permutation item_le (map_to_list counts)) as Hperm.
  split_and!.
  - assert (NoDup (merge_sort item_le (map_to_list counts)).*1) as Hnd.
    { rewrite Hperm. apply NoDup_fst_map_to_list. }
    pose proof (@StronglySorted_merge_sort _ item_le _ item_le_trans
                  item_le_total (map_to_list counts)) as Hs.
    revert Hs Hnd. generalize (merge_sort item_le (map_to_list counts)).
    induction 1 as [|a l Hl IH Hall]; intros Hnd; [constructor |].
    rewrite fmap_cons in Hnd. apply NoDup_cons in Hnd as [Ha Hnd].
    constructor; [by apply IH |].
    apply Forall_forall. intros b Hb.
    rewrite Forall_forall in Hall. destruct (Hall b Hb) as [? | [Heq _]]; [done |].
    exfalso. apply Ha. rewrite Heq. apply list_elem_of_fmap. by exists b.
  - intros t n. rewrite Hperm, elem_of_map_to_list, Hm.
    case_decide as H0; split.
    + done.
    + intros [-> ?]. lia.
    + intros [= <-]. split; [done | lia].
    + by intros [-> _].
  - by rewrite (sum_list_perm _ _ (fmap_Permutation snd _ _ Hperm)).
Qed.

(** *** The outline *)

Lemma indent_is_space depth :
  Forall (λ a, isspace a = true) (concat (replicate depth (py "  "))).
Proof. induction depth as [|d IH]; simpl; [done |]. by repeat constructor. Qed.

Lemma is_node_line_node depth rest :
  is_node_line (concat (replicate depth (py "  ")) ++ py "<" ++ rest) = true.
Proof.
  unfold is_node_line. by rewrite lstrip_app_space by apply indent_is_space.
Qed.

Lemma is_node_line_more depth rest :
  is_node_line (concat (replicate depth (py "  ")) ++ py "  ... (+" ++ rest)
  = false.
Proof.
  unfold is_node_line. by rewrite lstrip_app_space by apply indent_is_space.
Qed.

Lemma outline_inv_weaken max_nodes k st :
  outline_inv max_nodes (S k) st → outline_inv max_nodes k st.
Proof. intros (? & ? & ?). split_and!; [done.. | lia]. Qed.

Lemma emit_each_inv max_nodes k emit1 nodes st :
  (∀ node st, outline_inv max_nodes k st →
              outline_inv max_nodes k (emit1 node st).2) →
  outline_inv max_nodes k st →
  outline_inv max_nodes k (emit_each emit1 nodes st).2.
Proof.
  intros Hemit. revert st. induction nodes as [|c nodes IH]; intros st Hst; simpl.
  { done. }
  specialize (Hemit c st Hst). destruct (emit1 c st) as [[] st1]; simpl in *.
  - by apply IH.
  - done.
Qed.

Section outline_facts.

Variable attrib : nat → gmap str str.
Variable repr : str → str.

Lemma emit_inv s attr_names max_children max_nodes levels depth node st k :
  outline_inv max_nodes k st →
  outline_inv max_nodes k
    (emit attrib repr s attr_names max_children max_nodes levels depth node st).2.
Proof.
  revert depth node st k. induction levels as [|levels IH];
    intros depth node [lines count] k (Hnodes & Hmax & Hlen); simpl in *.
  - destruct (match max_nodes with Some n => _ | None => _ end) eqn:Hfull; simpl.
    { done. }
    split_and!; simpl.
    + rewrite filter_app, length_app, filter_cons_True
        by (apply (is_node_line_node depth)).
      rewrite filter_nil. simpl. lia.
    + intros n ->. apply Z.leb_gt in Hfull. lia.
    + rewrite length_app. simpl. lia.
  - destruct (match max_nodes with Some n => _ | None => _ end) eqn:Hfull; simpl.
    { done. }
    set (line := concat (replicate depth (py "  ")) ++ _).
    assert (outline_inv max_nodes (S k) (lines ++ [line], S count)) as Hst1.
    { split_and!; simpl.
      - rewrite filter_app, length_app, filter_cons_True
          by (apply (is_node_line_node depth)).
        rewrite filter_nil. simpl. lia.
      - intros n ->. apply Z.leb_gt in Hfull. lia.
      - rewrite length_app. simpl. lia. }
    destruct (match max_children with Some mc => _ | None => _ end)
      as [visible extra].
    pose proof (emit_each_inv max_nodes (S k)
                  (emit attrib repr s attr_names max_children max_nodes levels
                     (S depth))
                  visible _ (λ node st, IH (S depth) node st (S k)) Hst1) as Hst2.
    destruct (emit_each _ visible _) as [ok [lines2 count2]]. simpl in Hst2.
    destruct ok; [| by apply outline_inv_weaken].
    case_bool_decide; [| by apply outline_inv_weaken].
    destruct Hst2 as (Hn2 & Hm2 & Hl2). split_and!; simpl in *.
    + rewrite filter_app, length_app, filter_cons_False.
      * rewrite filter_nil. simpl. lia.
      * apply not_true_iff_false, (is_node_line_more depth).
    + done.
    + rewrite length_app. simpl. lia.
Qed.

(** X18. Of the lines [outline_lines] returns, those that show an element
    are at least half (an element is followed by at most one line that
    tells how many children were left out), and with [max_nodes] given
    they are at most [max_nodes]; with [max_nodes] zero or negative
    nothing is returned. *)
Theorem outline_respects_max_nodes s el max_depth attr_names max_children
    max_nodes include_root :
  let lines :=
    outline_lines attrib repr s el max_depth attr_names max_children max_nodes
      include_root in
  let nodes := length (filter (λ l, is_node_line l = true) lines) in
  length lines ≤ 2 * nodes
  ∧ ∀ n, max_nodes = Some n →
      nodes ≤ Z.to_nat n ∧ ((n <= 0)%Z → lines = []).
Proof.
  intros lines nodes.
  assert (outline_inv max_nodes 0 ([], 0)) as H0.
  { split_and!; simpl; [done | lia | lia]. }
  assert (outline_inv max_nodes 0 (lines, nodes)) as (_ & Hmax & Hlen).
  { unfold nodes, lines, outline_lines. destruct include_root.
    - pose proof (emit_inv s attr_names max_children max_nodes
                    (Z.to_nat max_depth) 0 el _ 0 H0) as H.
      destruct (emit _ _ _ _ _ _ _ _ _ _) as [ok [ls c]]. simpl in *.
      destruct H as (Hn & Hm & Hl). unfold outline_inv. simpl in *. rewrite Hn.
      split_and!; [done | done | lia].
    - pose proof (emit_each_inv max_nodes 0
                    (emit attrib repr s attr_names max_children max_nodes
                       (Z.to_nat max_depth) 0)
                    (get_children s el) _
                    (λ node st, emit_inv s attr_names max_children max_nodes
                                  (Z.to_nat max_depth) 0 node st 0) H0) as H.
      destruct (emit_each _ _ _) as [ok [ls c]]. simpl in *.
      destruct H as (Hn & Hm & Hl). unfold outline_inv. simpl in *. rewrite Hn.
      split_and!; [done | done | lia]. }
  simpl in *. split; [lia |]. intros n Hn. split; [by apply Hmax |].
  intros Hle. specialize (Hmax n Hn).
  assert (length lines = 0) as Hnil by lia.
  by destruct lines.
Qed.

End outline_facts.

(** *** What the commands write *)

Lemma writes_only_refl a targets w : writes_only a targets w w.
Proof. by intros p _. Qed.

Lemma writes_only_trans a targets w1 w2 w3 :
  writes_only a targets w1 w2 → writes_only a targets w2 w3 →
  writes_only a targets w1 w3.
Proof. intros H12 H23 p Hp. by rewrite H23, H12. Qed.

Lemma writes_only_stdout a targets w w' :
  files w' = files w → writes_only a targets w w'.
Proof. intros Hf p _. by rewrite Hf. Qed.

Lemma writes_only_write a targets w w' path data :
  in_place a = true → path ∈ targets → files w' = <[path := data]> (files w) →
  writes_only a targets w w'.
Proof.
  intros Hin Hpath Hf p [Hp | Hp]; [congruence |].
  rewrite Hf, lookup_insert_ne; [done |]. by intros ->.
Qed.

Lemma for_each_io_writes_only {A} (body : A → io ()) a targets l w :
  (∀ x w, x ∈ l → writes_only a targets w (body x w).2) →
  writes_only a targets w (for_each_io body l w).2.
Proof.
  revert w. induction l as [|x l IH]; intros w Hbody; simpl.
  { apply writes_only_refl. }
  unfold mbind, io_bind.
  pose proof (Hbody x w (list_elem_of_here _ _)) as Hx.
  destruct (body x w) as [[[]|e] w1]; simpl in *; [| done].
  eapply writes_only_trans; [exact Hx |].
  apply IH. intros y w' Hy. apply Hbody. by right.
Qed.

Lemma bind_writes_only {A B} (m : io A) (f : A → io B) a targets w :
  writes_only a targets w (m w).2 →
  (∀ x w', writes_only a targets w' (f x w').2) →
  writes_only a targets w ((m ≫= f) w).2.
Proof.
  intros Hm Hf. unfold mbind, io_bind.
  destruct (m w) as [[x|e] w1]; simpl in *; [| done].
  eapply writes_only_trans; [exact Hm | apply Hf].
Qed.

Lemma lift_writes_only {A} (r : result A) a targets w :
  writes_only a targets w (lift r w).2.
Proof. apply writes_only_refl. Qed.

Lemma mret_writes_only {A} (x : A) a targets w :
  writes_only a targets w ((mret x : io A) w).2.
Proof. apply writes_only_refl. Qed.

Lemma print_writes_only line a targets w :
  writes_only a targets w (print line w).2.
Proof. by apply writes_only_stdout. Qed.

Lemma read_bytes_writes_only path a targets w :
  writes_only a targets w (read_bytes path w).2.
Proof. unfold read_bytes. destruct (files w !! path); apply writes_only_refl. Qed.

Lemma write_file_writes_only path data a targets w :
  in_place a = true → path ∈ targets →
  writes_only a targets w (write_file path data w).2.
Proof. intros Hin Hpath. by eapply writes_only_write. Qed.

Lemma summarize_writes_only path matches changed wrote a targets w :
  writes_only a targets w (summarize path matches changed wrote w).2.
Proof. unfold summarize. destruct (changed =? 0); apply print_writes_only. Qed.

Lemma expand_paths_writes_only sorted_glob raw a targets w :
  writes_only a targets w (expand_paths sorted_glob raw w).2.
Proof. apply writes_only_refl. Qed.

Lemma parse_doc_writes_only etree_parse path huge recover a targets w :
  writes_only a targets w (parse_doc etree_parse path huge recover w).2.
Proof.
  unfold parse_doc. apply bind_writes_only; [apply read_bytes_writes_only |].
  intros data w'. destruct (detect_decl_and_encoding data).
  destruct (etree_parse data huge recover);
    [apply mret_writes_only | apply lift_writes_only].
Qed.

(** The write of a file step: it happens under [--in-place] only. *)
Lemma guarded_write_writes_only a targets path data changed w :
  path ∈ targets →
  writes_only a targets w
    ((if negb (changed =? 0) && in_place a then write_file path data
      else mret ()) w).2.
Proof.
  intros Hpath. destruct (negb (changed =? 0) && in_place a) eqn:Hw.
  - apply andb_true_iff in Hw as [_ Hin]. by apply write_file_writes_only.
  - apply mret_writes_only.
Qed.

(** One step through a computation: a bind, a primitive, or a choice. *)
Ltac writes_only_step :=
  lazymatch goal with
  | |- writes_only _ _ _ (snd ((_ ≫= _) _)) =>
      apply bind_writes_only; [| intros ? ?]
  | |- writes_only _ _ _ (snd (lift _ _)) => apply lift_writes_only
  | |- writes_only _ _ _ (snd (mret _ _)) => apply mret_writes_only
  | |- writes_only _ _ _ (snd (print _ _)) => apply print_writes_only
  | |- writes_only _ _ _ (snd (show_diff _ _ _ _ _)) => apply print_writes_only
  | |- writes_only _ _ _ (snd (read_bytes _ _)) => apply read_bytes_writes_only
  | |- writes_only _ _ _ (snd (parse_doc _ _ _ _ _)) =>
      apply parse_doc_writes_only
  | |- writes_only _ _ _ (snd (expand_paths _ _ _)) =>
      apply expand_paths_writes_only
  | |- writes_only _ _ _ (snd (summarize _ _ _ _ _)) =>
      apply summarize_writes_only
  | |- writes_only _ _ _ (snd ((let '(_, _) := ?x in _) _)) => destruct x
  | |- writes_only _ _ _ (snd ((if ?b then _ else _) _)) => destruct b eqn:?
  | |- writes_only _ _ _ (snd ((match ?x with _ => _ end) _)) => destruct x eqn:?
  end.

Ltac file_step_writes_only Hpath :=
  repeat first [ apply (guarded_write_writes_only _ _ _ _ _ _ Hpath)
               | writes_only_step ].

Section surgical_commands.

Variable etree_parse : str → bool → bool → option document.
Variable tree_xpath : document → str → gmap str str → option (list item).
Variable write_nodes : document → str → str.
Variable sorted_glob : gmap string str → string → list string.
Variable unified_diff : string → str → str → string.
Variable bytes_decode : str → str → bool → result str.
Variable str_encode : str → str → result str.
Variable read_utf8 : str → result str.

Lemma mutate_file_writes_only a ns_map (m : mutator) targets path w :
  path ∈ targets →
  writes_only a targets w
    (mutate_file etree_parse tree_xpath write_nodes unified_diff
       a ns_map m path w).2.
Proof. intros Hpath. unfold mutate_file. file_step_writes_only Hpath. Qed.

Lemma set_text_file_writes_only a ns_map value targets path w :
  path ∈ targets →
  writes_only a targets w
    (set_text_file etree_parse tree_xpath unified_diff bytes_decode str_encode
       a ns_map value path w).2.
Proof. intros Hpath. unfold set_text_file. file_step_writes_only Hpath. Qed.

Lemma set_attr_file_writes_only a ns_map name value targets path w :
  path ∈ targets →
  writes_only a targets w
    (set_attr_file etree_parse tree_xpath unified_diff bytes_decode str_encode
       a ns_map name value path w).2.
Proof. intros Hpath. unfold set_attr_file. file_step_writes_only Hpath. Qed.

Lemma del_attr_file_writes_only a ns_map name targets path w :
  path ∈ targets →
  writes_only a targets w
    (del_attr_file etree_parse tree_xpath unified_diff bytes_decode str_encode
       a ns_map name path w).2.
Proof. intros Hpath. unfold del_attr_file. file_step_writes_only Hpath. Qed.

(** [read_text_arg] reads; it leaves the world as it is. *)
Lemma read_text_arg_world value value_file w :
  (read_text_arg read_utf8 value value_file w).2 = w.
Proof.
  unfold read_text_arg, read_bytes, lift, mbind, io_bind, mret, io_ret.
  repeat case_match; simplify_eq; done.
Qed.

(** The loop of a command over the paths it was given. *)
Lemma file_loop_writes_only (body : string → io ()) a w :
  (∀ targets path w, path ∈ targets → writes_only a targets w (body path w).2) →
  ∀ targets, (expand_paths sorted_glob (paths a) w).1 = Ok targets →
  writes_only a targets w
    ((paths ← expand_paths sorted_glob (paths a);
      _ ← (if bool_decide (paths = []) then lift (fail "no files matched")
           else mret ());
      _ ← for_each_io body paths;
      mret 0%Z) w).2.
Proof.
  intros Hbody targets Hexp. unfold expand_paths in *. simpl in Hexp.
  injection Hexp as <-. unfold mbind at 1, io_bind at 1.
  repeat writes_only_step.
  apply for_each_io_writes_only. intros path w1 Hin. by apply Hbody.
Qed.

(** X19. The structural commands (through [mutate_files]) and the
    surgical commands [cmd_set_text], [cmd_set_attr] and [cmd_del_attr],
    whatever they return or raise: without [--in-place] every file is
    afterwards what it was before, and with [--in-place] so is every file
    that is not among the paths [expand_paths] returned. *)
Theorem commands_write_only_their_targets a (m : mutator) name value value_file
    targets w :
  (expand_paths sorted_glob (paths a) w).1 = Ok targets →
  writes_only a targets w
    (mutate_files etree_parse tree_xpath write_nodes sorted_glob unified_diff
       a m w).2
  ∧ writes_only a targets w
      (cmd_set_text etree_parse tree_xpath sorted_glob unified_diff
         bytes_decode str_encode read_utf8 a value value_file w).2
  ∧ writes_only a targets w
      (cmd_set_attr etree_parse tree_xpath sorted_glob unified_diff
         bytes_decode str_encode read_utf8 a name value value_file w).2
  ∧ writes_only a targets w
      (cmd_del_attr etree_parse tree_xpath sorted_glob unified_diff
         bytes_decode str_encode a name w).2.
Proof.
  intros Hexp.
  assert (∀ A (r : result A) (f : A → io Z),
            (∀ x, writes_only a targets w (f x w).2) →
            writes_only a targets w ((lift r ≫= f) w).2) as Hlift.
  { intros A r f Hf. unfold mbind, io_bind, lift. destruct r; [apply Hf | done]. }
  assert (∀ (f : str → io Z),
            (∀ x, writes_only a targets w (f x w).2) →
            writes_only a targets w
              ((read_text_arg read_utf8 value value_file ≫= f) w).2) as Hread.
  { intros f Hf. unfold mbind, io_bind.
    pose proof (read_text_arg_world value value_file w) as Hw.
    destruct (read_text_arg read_utf8 value value_file w) as [[x|e] w1];
      simpl in Hw; subst w1; [apply Hf | done]. }
  split_and!.
  - unfold mutate_files. apply Hlift. intros ns_map.
    apply file_loop_writes_only; [| done].
    intros. by apply mutate_file_writes_only.
  - unfold cmd_set_text. apply Hread. intros v. apply Hlift. intros ns_map.
    apply file_loop_writes_only; [| done].
    intros. by apply set_text_file_writes_only.
  - unfold cmd_set_attr. apply Hread. intros v. apply Hlift. intros ns_map.
    apply file_loop_writes_only; [| done].
    intros. by apply set_attr_file_writes_only.
  - unfold cmd_del_attr. apply Hlift. intros ns_map.
    apply file_loop_writes_only; [| done].
    intros. by apply del_attr_file_writes_only.
Qed.

End surgical_commands.

Lemma commands_write_only_their_targets_witness :
  let a := sample_args ["a.xml"] "/r/a" in
  writes_only a ["a.xml"] sample_world
    (mutate_files sample_parse sample_xpath sample_write sample_glob sample_diff
       a apply_delete sample_world).2
  ∧ writes_only a ["a.xml"] sample_world
      (cmd_set_text sample_parse sample_xpath sample_glob sample_diff
         sample_decode sample_encode sample_read_utf8
         a (Some (py "x")) None sample_world).2
  ∧ writes_only a ["a.xml"] sample_world
      (cmd_set_attr sample_parse sample_xpath sample_glob sample_diff
         sample_decode sample_encode sample_read_utf8
         a (py "id") (Some (py "x")) None sample_world).2
  ∧ writes_only a ["a.xml"] sample_world
      (cmd_del_attr sample_parse sample_xpath sample_glob sample_diff
         sample_decode sample_encode a (py "id") sample_world).2.
Proof.
  intros a.
  apply (commands_write_only_their_targets
           sample_parse sample_xpath sample_write sample_glob sample_diff
           sample_decode sample_encode sample_read_utf8
           a apply_delete (py "id") (Some (py "x")) None ["a.xml"] sample_world).
  vm_compute. reflexivity.
Defined.

(** The surgical commands at work on the sample file: the attribute is
    written into the tag and the rest of the file is kept; the text of the
    element is set. *)
Example cmd_set_attr_on_the_sample :
  cmd_set_attr sample_parse sample_xpath sample_glob sample_diff
    sample_decode sample_encode sample_read_utf8
    (sample_args ["a.xml"] "/r/a") (py "id") (Some (py "x")) None sample_world
  = (Ok 0%Z,
     {| files := <["a.xml" := py "<r><a id=" ++ [c_dquote] ++ py "x" ++
                              [c_dquote] ++ py "/></r>"]> (files sample_world);
        stdout := ["a.xml: 1 match(es), 1 change(s) (written)"] |}).
Proof. vm_compute. reflexivity. Qed.

(** *** Which tag is located *)

(** [find_in] returns the first place where the needle stands. *)
Lemma find_in_first needle s :
  match find_in needle s with
  | Some i => ∀ j, j < i → startswith needle (drop j s) = false
  | None => ∀ j, j ≤ length s → startswith needle (drop j s) = false
  end.
Proof.
  induction s as [|x s IH]; simpl.
  - destruct (startswith needle []) eqn:H0; [intros j Hj; lia |].
    intros j Hj. by rewrite drop_nil.
  - destruct (startswith needle (x :: s)) eqn:H0; [intros j Hj; lia |].
    destruct (find_in needle s) as [i|]; simpl.
    + intros [|j] Hj; [done |]. simpl. apply IH. lia.
    + intros [|j] Hj; [done |]. simpl. apply IH. lia.
Qed.

Lemma find_first needle text start :
  match find needle text start with
  | Some i => ∀ j, start ≤ j < i → startswith needle (drop j text) = false
  | None => ∀ j, start ≤ j ≤ length text → startswith needle (drop j text) = false
  end.
Proof.
  unfold find. case_decide as Hs.
  - pose proof (find_in_first needle (drop start text)) as H.
    destruct (find_in needle (drop start text)) as [i|]; simpl.
    + intros j Hj. specialize (H (j - start)). rewrite drop_drop in H.
      replace (start + (j - start)) with j in H by lia. apply H. lia.
    + intros j Hj. specialize (H (j - start)). rewrite drop_drop in H.
      replace (start + (j - start)) with j in H by lia. apply H.
      rewrite length_drop. lia.
  - intros j Hj. lia.
Qed.

(** X20. The span [find_start_tag_span] returns starts at the first place,
    from the line start on, where [<] followed by the tag name stands (the
    name is not checked to end there); when [<] followed by the name
    stands nowhere from the line start on, the span starts at the first
    [<] from the line start on, whatever tag that opens. *)
Theorem find_start_tag_span_takes_first_candidate text line_start tg s e :
  find_start_tag_span text line_start tg = Some (s, e) →
  line_start ≤ s
  ∧ (startswith (c_lt :: tg) (drop s text) = true
     ∧ (∀ j, line_start ≤ j < s → startswith (c_lt :: tg) (drop j text) = false)
     ∨ (∀ j, line_start ≤ j ≤ length text
             → startswith (c_lt :: tg) (drop j text) = false)
       ∧ text !! s = Some c_lt
       ∧ ∀ j, line_start ≤ j < s → text !! j ≠ Some c_lt).
Proof.
  unfold find_start_tag_span. intros H.
  pose proof (find_first (c_lt :: tg) text line_start) as Hneedle.
  destruct (find (c_lt :: tg) text line_start) as [s1|] eqn:Hf1.
  - cbn [mbind option_bind] in H.
    destruct (scan_tag None s1 (drop s1 text)) as [i|]; [| done].
    injection H as <- <-.
    destruct (find_startswith _ _ _ _ Hf1) as [Hle Hsw].
    split; [done |]. left. split; [done |]. exact Hneedle.
  - pose proof (find_first [c_lt] text line_start) as Hlt.
    destruct (find [c_lt] text line_start) as [s2|] eqn:Hf2; [| done].
    cbn [mbind option_bind] in H.
    destruct (scan_tag None s2 (drop s2 text)) as [i|]; [| done].
    injection H as <- <-.
    destruct (find_startswith _ _ _ _ Hf2) as [Hle Hsw].
    split; [done |]. right. split_and!.
    + exact Hneedle.
    + apply startswith_head in Hsw. by rewrite lookup_drop, Nat.add_0_r in Hsw.
    + intros j Hj Hc. specialize (Hlt j Hj).
      rewrite (drop_S _ _ _ Hc) in Hlt. simpl in Hlt. done.
Qed.

Lemma find_start_tag_span_takes_first_candidate_witness :
  let text := py "<r><a/></r>" in
  0 ≤ 3
  ∧ (startswith (c_lt :: py "a") (drop 3 text) = true
     ∧ (∀ j, 0 ≤ j < 3 → startswith (c_lt :: py "a") (drop j text) = false)
     ∨ (∀ j, 0 ≤ j ≤ length text
             → startswith (c_lt :: py "a") (drop j text) = false)
       ∧ text !! 3 = Some c_lt
       ∧ ∀ j, 0 ≤ j < 3 → text !! j ≠ Some c_lt).
Proof.
  intros text.
  apply (find_start_tag_span_takes_first_candidate text 0 (py "a") 3 6).
  vm_compute. reflexivity.
Defined.

(** *** set-text on an element with children *)

Lemma apply_text_surgical_children text elements value el :
  el ∈ elements → children el ≠ [] →
  ∃ e, apply_text_surgical text elements value = Raise e.
Proof.
  intros Hel Hch. unfold apply_text_surgical, text_edits.
  assert (∀ st, ∃ e, for_each (text_step text (line_starts text) value) st elements
                     = Raise e) as Hloop.
  { induction elements as [|x els IH]; intros [edits seen].
    { by apply elem_of_nil in Hel. }
    apply elem_of_cons in Hel as [<- | Hel]; cbn [for_each].
    - unfold text_step. destruct (children el); [done |]. simpl. eauto.
    - destruct (text_step _ _ _ _ x) as [st'|e]; [| simpl; eauto].
      cbn [mbind result_bind]. by apply IH. }
  destruct (Hloop ([], ∅)) as [e ->]. simpl. eauto.
Qed.

Section set_text_command.

Variable etree_parse : str → bool → bool → option document.
Variable tree_xpath : document → str → gmap str str → option (list item).
Variable unified_diff : string → str → str → string.
Variable bytes_decode : str → str → bool → result str.
Variable str_encode : str → str → result str.

(** X21. In [cmd_set_text], a file in which one of the matched elements
    has child elements is given up as a whole: the file step raises, and
    nothing is written or printed for the file, whatever the other matched
    elements are. *)
Theorem set_text_refuses_child_elements a ns_map value path w
    data tree items elements el :
  files w !! path = Some data →
  etree_parse data (huge a) (recover a) = Some tree →
  tree_xpath tree (xpath a) ns_map = Some items →
  ensure_elements (Main.limit items (limit_ a)) = Ok elements →
  el ∈ elements →
  children (element_at tree el) ≠ [] →
  ∃ e, set_text_file etree_parse tree_xpath unified_diff bytes_decode str_encode
         a ns_map value path w = (Raise e, w).
Proof.
  intros Hfile Hparse Hxpath Hels Hel Hch.
  unfold set_text_file, parse_doc, read_bytes, select, lift, mbind, io_bind.
  rewrite Hfile. destruct (detect_decl_and_encoding data) as [has_decl enc].
  rewrite Hparse. simpl. rewrite Hxpath, Hels.
  destruct (decode_text bytes_decode data enc) as [text|e]; [| eauto].
  destruct (apply_text_surgical_children text (element_at tree <$> elements)
              value (element_at tree el)) as [e ->]; [| done | eauto].
  apply list_elem_of_fmap. eauto.
Qed.

End set_text_command.

Lemma set_text_refuses_child_elements_witness :
  ∃ e, set_text_file sample_parse sample_xpath sample_diff sample_decode
         sample_encode (sample_args ["a.xml"] "/r") ∅ (py "x") "a.xml"
         sample_world = (Raise e, sample_world).
Proof.
  apply (set_text_refuses_child_elements sample_parse sample_xpath sample_diff
           sample_decode sample_encode (sample_args ["a.xml"] "/r") ∅ (py "x")
           "a.xml" sample_world sample_bytes sample_doc [Element 0] [0] 0);
    try (vm_compute; reflexivity).
  - apply list_elem_of_singleton. reflexivity.
  - vm_compute. discriminate.
Defined.

(** *** Setting the text in the tree *)








(** *** Quoted values in a tag *)

Lemma scan_tag_outside i pre rest :
  Forall (λ c, is_quote c = false ∧ c ≠ c_gt) pre →
  scan_tag None i (pre ++ rest) = scan_tag None (i + length pre) rest.
Proof.
  intros Hpre. revert i. induction Hpre as [|c pre [Hq Hgt] _ IH]; intros i; simpl.
  { by rewrite Nat.add_0_r. }
  unfold is_quote in Hq. rewrite Hq.
  rewrite (proj2 (N.eqb_neq c c_gt) Hgt). simpl.
  rewrite IH. f_equal. lia.
Qed.

Lemma scan_tag_inside q i v rest :
  is_quote q = true → q ∉ v →
  scan_tag (Some q) i (v ++ rest) = scan_tag (Some q) (i + length v) rest.
Proof.
  intros Hq Hv. revert i. induction v as [|c v IH]; intros i; simpl.
  { by rewrite Nat.add_0_r. }
  apply not_elem_of_cons in Hv as [Hc Hv].
  rewrite (proj2 (N.eqb_neq q c)) by done.
  replace (i + S (length v)) with (S i + length v) by lia.
  destruct ((c =? c_dquote)%N || (c =? c_squote)%N); [by apply IH |].
  rewrite andb_false_r. by apply IH.
Qed.

(** X23. The scan of [find_start_tag_span] for the end of a tag passes
    over a quoted value: in a text that holds characters other than quotes
    and [>], then a value between two equal quote characters (the value
    may hold [>] and the other quote character), then again characters
    other than quotes and [>], and then [>], the scan ends at that [>]. *)
Theorem scan_tag_skips_quoted_value q i pre v post rest :
  is_quote q = true →
  q ∉ v →
  Forall (λ c, is_quote c = false ∧ c ≠ c_gt) pre →
  Forall (λ c, is_quote c = false ∧ c ≠ c_gt) post →
  scan_tag None i (pre ++ [q] ++ v ++ [q] ++ post ++ [c_gt] ++ rest)
  = Some (i + length pre + length v + 2 + length post).
Proof.
  intros Hq Hv Hpre Hpost. rewrite scan_tag_outside by done.
  cbn [app scan_tag]. unfold is_quote in Hq. rewrite Hq.
  rewrite scan_tag_inside by done.
  cbn [scan_tag]. rewrite Hq, N.eqb_refl.
  rewrite scan_tag_outside by done. simpl. f_equal. lia.
Qed.

Lemma scan_tag_skips_quoted_value_witness :
  scan_tag None 0 (py "<a t=" ++ [c_squote] ++ py "x>y" ++ [c_squote] ++ py " /"
                   ++ [c_gt] ++ py "z")
  = Some (0 + 5 + 3 + 2 + 2).
Proof.
  apply (scan_tag_skips_quoted_value c_squote 0 (py "<a t=") (py "x>y") (py " /")
           (py "z")).
  - reflexivity.
  - vm_compute. not_in_literal.
  - repeat constructor; done.
  - repeat constructor; done.
Defined.
